(** * SudokuSolver: a shallow embedding of [SudokuSolver.py]

    The Python class [Sudoku] owns a 9x9 matrix [self.grid] (a list of
    lists of ints), two clock fields [self.start] and [self.time], and a
    flag [self.solved].  Its methods are embedded below in the order of
    the source file; Python exceptions are explicit results, the mutable
    object is threaded as explicit state, and the recursion of
    [recursive_solve] is bounded by an explicit call-stack depth.  Ints
    are integers, floats are binary64 numbers, strings are sequences of
    code points.  What the program asks of its surroundings is a
    parameter: the readings of the clock, the Unicode database, the
    builtin [sum], the files and the directories. *)

From Stdlib Require Import Floats.
From stdpp Require Import base list strings.
From Stdlib Require Import ZArith Lia Ascii.

Open Scope nat_scope.

(** ** Strings *)

(** A Python string is a sequence of Unicode code points. *)
Abbreviation ustr := (list N).

(** The string an ASCII literal of the source denotes. *)
Definition codes (s : string) : ustr :=
  N_of_ascii <$> String.list_ascii_of_string s.

(** ** Exceptions and results *)

(** The payload of a [ValueError].  [InvalidGridRow k s] stands for the
    message [f'Invalid grid in row {k}: {s}'] of [load_grid];
    [InvalidLiteral s] for the error of the builtin [int(s)];
    [NotInList] for the error of [list.index]. *)
Inductive value_error : Type :=
  | InvalidGridRow (index : nat) (content : ustr)
  | InvalidLiteral (lit : ustr)
  | NotInList.

(** What comes from outside the program: the subclasses of [OSError]
    that [open] and [os.listdir] raise, and the [UnicodeDecodeError] of
    a text file whose bytes are not text. *)
Inductive external : Type :=
  | FileNotFoundError
  | NotADirectoryError
  | IsADirectoryError
  | PermissionError
  | OtherOSError
  | UnicodeDecodeError.

Inductive exn : Type :=
  | IndexError
  | ValueError (e : value_error)
  | ZeroDivisionError
  | External (e : external).

(** What a call does: it returns, it raises, or the call stack allotted
    to it ([fuel]) is exhausted before it does either. *)
Inductive result (A : Type) : Type :=
  | Ret (a : A)
  | Raise (e : exn)
  | OutOfFuel.
Arguments Ret {A} a.
Arguments Raise {A} e.
Arguments OutOfFuel {A}.

Definition bind {A B} (m : result A) (k : A -> result B) : result B :=
  match m with
  | Ret a => k a
  | Raise e => Raise e
  | OutOfFuel => OutOfFuel
  end.

Notation "'let*' x := m 'in' k" := (bind m (fun x => k))
  (at level 10, x name, m at level 100, k at level 200).

(** ** Lists as Python lists *)

(** [l[i]] for a non-negative index. *)
Definition getitem {A} (l : list A) (i : nat) : result A :=
  match l !! i with
  | Some x => Ret x
  | None => Raise IndexError
  end.

(** [l[i] = x] for a non-negative index. *)
Definition setitem {A} (l : list A) (i : nat) (x : A) : result (list A) :=
  if i <? length l then Ret (<[i:=x]> l) else Raise IndexError.

(** [range(a, b, 1)] on ints; [range(9)] on indices is [seq 0 9]. *)
Definition range (a b : Z) : list Z :=
  map (fun k => (a + Z.of_nat k)%Z) (seq 0 (Z.to_nat (b - a))).

(** ** The grid *)

Abbreviation Grid := (list (list Z)).

(** [self.grid[i][j]] *)
Definition cell (g : Grid) (i j : nat) : result Z :=
  let* row := getitem g i in getitem row j.

(** [self.grid[i][j] = v].  The rows of a loaded grid are nine distinct
    list objects, so writing one row leaves the others as they are. *)
Definition set_cell (g : Grid) (i j : nat) (v : Z) : result Grid :=
  let* row := getitem g i in
  let* row' := setitem row j v in
  setitem g i row'.

(** ** [Sudoku.check] *)

(** The first loop of [check]: [for i in range(9)], with the caller's
    position unpacked as [col, row = position]. *)
Fixpoint check_lines (g : Grid) (digit : Z) (col row : nat) (ixs : list nat)
  : result bool :=
  match ixs with
  | [] => Ret true
  | i :: ixs' =>
      let* hit := (if negb (col =? i)
                   then let* x := cell g i row in Ret (x =? digit)%Z
                   else Ret false) in
      if hit then Ret false
      else
        let* hit' := (if negb (row =? i)
                      then let* x := cell g col i in Ret (x =? digit)%Z
                      else Ret false) in
        if hit' then Ret false
        else check_lines g digit col row ixs'
  end.

(** The inner loop over the region: [for j in range(region_row, region_row + 3)]. *)
Fixpoint check_region_row (g : Grid) (digit : Z) (col row i : nat) (js : list nat)
  : result bool :=
  match js with
  | [] => Ret true
  | j :: js' =>
      let* x := cell g i j in
      if (x =? digit)%Z && negb ((i =? col) && (j =? row)) then Ret false
      else check_region_row g digit col row i js'
  end.

(** The outer loop over the region: [for i in range(region_col, region_col + 3)]. *)
Fixpoint check_region (g : Grid) (digit : Z) (col row : nat) (ixs js : list nat)
  : result bool :=
  match ixs with
  | [] => Ret true
  | i :: ixs' =>
      let* ok := check_region_row g digit col row i js in
      if ok then check_region g digit col row ixs' js else Ret false
  end.

Definition check (g : Grid) (digit : Z) (position : nat * nat) : result bool :=
  let '(col, row) := position in
  let region_row := (row / 3) * 3 in
  let region_col := (col / 3) * 3 in
  let* ok := check_lines g digit col row (seq 0 9) in
  if ok then
    check_region g digit col row (seq region_col 3) (seq region_row 3)
  else Ret false.

(** ** [Sudoku.print_grid] *)

(** The console is the list of the lines printed so far. *)







(** ** [Sudoku.find_empty_cell] *)

Fixpoint find_in_row (g : Grid) (i : nat) (js : list nat)
  : result (option (nat * nat)) :=
  match js with
  | [] => Ret None
  | j :: js' =>
      let* x := cell g i j in
      if (x =? 0)%Z then Ret (Some (i, j)) else find_in_row g i js'
  end.

Fixpoint find_in_rows (g : Grid) (ixs : list nat) : result (option (nat * nat)) :=
  match ixs with
  | [] => Ret None
  | i :: ixs' =>
      let* r := find_in_row g i (seq 0 9) in
      match r with
      | Some p => Ret (Some p)
      | None => find_in_rows g ixs'
      end
  end.

Definition find_empty_cell (g : Grid) : result (option (nat * nat)) :=
  find_in_rows g (seq 0 9).

(** ** The [Sudoku] object and its state *)

(** The fields of [self].  A Python float is an IEEE 754 binary64
    number, and so is a [float] here: [-], [*], [+] and [/] on floats are
    the operations of the machine. *)
Record Sudoku : Type := mkSudoku {
  grid : Grid;
  solved : bool;
  start : float;
  time : float
}.

(** The object together with the number of clock readings made so far. *)
Record World : Type := mkWorld {
  self : Sudoku;
  ticks : nat
}.

(** A method of the object: it runs in a world and returns a value and
    the world it leaves behind, or raises, or runs out of stack. *)
Definition M (A : Type) : Type := World -> result (A * World).

Definition sret {A} (a : A) : M A := fun w => Ret (a, w).

Definition sbind {A B} (m : M A) (k : A -> M B) : M B :=
  fun w =>
    match m w with
    | Ret (a, w') => k a w'
    | Raise e => Raise e
    | OutOfFuel => OutOfFuel
    end.

Notation "'let+' x := m 'in' k" := (sbind m (fun x => k))
  (at level 10, x name, m at level 100, k at level 200).

(** A method that only reads [self.grid]. *)
Definition on_grid {A} (f : Grid -> result A) : M A :=
  fun w => let* a := f (grid (self w)) in Ret (a, w).

(** The world in which [self.grid] is [g]. *)
Definition with_grid (w : World) (g : Grid) : World :=
  let s := self w in
  mkWorld (mkSudoku g (solved s) (start s) (time s)) (ticks w).

(** [self.grid[row][col] = v] *)
Definition write_cell (row col : nat) (v : Z) : M unit :=
  fun w =>
    let* g' := set_cell (grid (self w)) row col v in
    Ret (tt, with_grid w g').

Definition get_self : M Sudoku := fun w => Ret (self w, w).

(** [self.start = t] and [self.time = t] *)
Definition set_start (t : float) : M unit :=
  fun w =>
    let s := self w in
    Ret (tt, mkWorld (mkSudoku (grid s) (solved s) t (time s)) (ticks w)).

Definition set_time (t : float) : M unit :=
  fun w =>
    let s := self w in
    Ret (tt, mkWorld (mkSudoku (grid s) (solved s) (start s) t) (ticks w)).

(** The integer nearest to [a / b], for [b > 0]; of two nearest, the
    even one. *)
Definition div_half_even (a b : Z) : Z :=
  let q := (a / b)%Z in
  match (2 * (a mod b) ?= b)%Z with
  | Lt => q
  | Gt => (q + 1)%Z
  | Eq => if Z.even q then q else (q + 1)%Z
  end.

(** The builtin [round(x, ndigits)] on a float, for [ndigits >= 0].  The
    interpreter rounds the exact value [m * 2^e] of [x] to the nearest
    multiple [k / 10^ndigits] of [10^-ndigits], ties to the even [k], and
    returns the float nearest to that decimal; an infinity, a NaN, a
    zero and a float that is an integer are returned as they are. *)
Definition round (x : float) (ndigits : nat) : float :=
  match Prim2SF x with
  | S754_finite s m e =>
      if (0 <=? e)%Z then x
      else
        let p := (10 ^ Z.of_nat ndigits)%Z in
        match div_half_even (Z.pos m * p) (2 ^ (- e)) with
        | Z.pos k =>
            SF2Prim (SFdiv prec emax (S754_finite s k 0)
                                     (S754_finite false (Z.to_pos p) 0))
        | _ => SF2Prim (S754_zero s)
        end
  | _ => x
  end.

(** [float(n)] for a non-negative int: the float nearest to [n]. *)
Definition float_of_nat (n : nat) : float :=
  SF2Prim (binary_normalize prec emax (Z.of_nat n) 0 false).

(** ** [Sudoku.time_taken] *)

(** [self.time * 1000] multiplies by the float [1000.0]. *)
Definition time_taken (s : Sudoku) : float :=
  round (time s * 1000)%float 2.

(** The line [solve] prints. *)
Inductive report : Type :=
  | GridIsUnsolvable                (* 'Error: Grid is unsolvable' *)
  | GridSolvedIn (ms : float).      (* 'Grid solved in {} ms' *)

Section Clock.

(** The readings of [time.perf_counter], in the order they are made. *)
Variable clock : nat -> float.

Definition perf_counter : M float :=
  fun w => Ret (clock (ticks w), mkWorld (self w) (S (ticks w))).

(** ** [Sudoku.recursive_solve] *)

(** The loop [for i in range(1, 10, 1)] at the cell [(row, col)]; [rec]
    is the recursive call [self.recursive_solve()]. *)
Fixpoint solve_loop (rec : M bool) (row col : nat) (candidates : list Z) : M bool :=
  match candidates with
  | [] => sret false
  | i :: candidates' =>
      let+ ok := on_grid (fun g => check g i (row, col)) in
      if ok then
        let+ _ := write_cell row col i in
        let+ found := rec in
        if found then sret true
        else
          let+ _ := write_cell row col 0 in
          solve_loop rec row col candidates'
      else solve_loop rec row col candidates'
  end.

(** [fuel] bounds the depth of the call stack: a call at depth [fuel]
    may nest [fuel - 1] further calls. *)
Fixpoint recursive_solve (fuel : nat) : M bool :=
  match fuel with
  | O => fun _ => OutOfFuel
  | S fuel' =>
      let+ result := on_grid find_empty_cell in
      match result with
      | Some (row, col) =>
          solve_loop (recursive_solve fuel') row col (range 1 10)
      | None =>
          let+ now := perf_counter in
          let+ s := get_self in
          let+ _ := set_time (now - start s)%float in
          sret true
      end
  end.

(** ** [Sudoku.solve] *)

(** The printed line is returned next to [self.grid]. *)
Definition solve (fuel : nat) : M (report * Grid) :=
  let+ now := perf_counter in
  let+ _ := set_start now in
  let+ found := recursive_solve fuel in
  let+ s := get_self in
  if negb found then sret (GridIsUnsolvable, grid s)
  else sret (GridSolvedIn (time_taken s), grid s).

End Clock.

(** ** The interpreter and the machine *)

(** What the program takes from the interpreter it runs on and from the
    operating system.  The Unicode database of the interpreter decides
    [str.isspace] and [str.isdigit] character by character, and gives
    the value [int] reads in a decimal digit ([None] for any other
    character); a decimal digit has one of the values 0..9.  The builtin
    [sum] adds floats from left to right in some versions of the
    interpreter and compensates the rounding errors in others.  Opening
    a text file and reading it to the end gives its lines, each with its
    line end, or fails; listing a directory gives the names of its
    entries, in some order, or fails. *)
Record Host : Type := mkHost {
  isspace_char : N -> bool;
  isdigit_char : N -> bool;
  decimal : N -> option Z;
  decimal_range : forall c v, decimal c = Some v -> (0 <= v <= 9)%Z;
  sum_floats : list float -> float;
  read_lines : ustr -> external + list ustr;
  listdir : ustr -> external + list ustr
}.

(** A call into the host returns, or raises what the host raises. *)
Definition from_host {A} (r : external + A) : result A :=
  match r with
  | inl e => Raise (External e)
  | inr a => Ret a
  end.

(** [x == y] on strings. *)
Fixpoint str_eqb (x y : ustr) : bool :=
  match x, y with
  | [], [] => true
  | a :: x', b :: y' => (a =? b)%N && str_eqb x' y'
  | _, _ => false
  end.

(** [data.index(x)] *)
Fixpoint index (data : list ustr) (x : ustr) : result nat :=
  match data with
  | [] => Raise (ValueError NotInList)
  | y :: data' =>
      if str_eqb y x then Ret 0
      else let* k := index data' x in Ret (S k)
  end.

(** [[f(x) for x in xs]] *)
Fixpoint comprehension {A B} (f : A -> result B) (xs : list A) : result (list B) :=
  match xs with
  | [] => Ret []
  | x :: xs' =>
      let* y := f x in
      let* ys := comprehension f xs' in
      Ret (y :: ys)
  end.

(** Whether a string is true as a condition: it is not empty. *)
Definition truthy (l : ustr) : bool :=
  match l with
  | [] => false
  | _ => true
  end.

Section Loading.

Variable h : Host.

(** [s.isdigit()]: every character is a digit and there is at least one. *)
Definition isdigit (s : ustr) : bool :=
  match s with
  | [] => false
  | _ => forallb (isdigit_char h) s
  end.

Fixpoint lstrip (cs : ustr) : ustr :=
  match cs with
  | c :: cs' => if isspace_char h c then lstrip cs' else cs
  | [] => []
  end.

(** [s.strip()] *)
Definition strip (s : ustr) : ustr :=
  rev (lstrip (rev (lstrip s))).

(** [int(x)] for a string [x] of one character. *)
Definition int (c : N) : result Z :=
  match decimal h c with
  | Some v => Ret v
  | None => Raise (ValueError (InvalidLiteral [c]))
  end.

(** ** [Sudoku.load_grid] *)

(** The loop [for i in data], started with [grid = []]. *)
Fixpoint load_rows (data rest : list ustr) (grid : Grid) : result Grid :=
  match rest with
  | [] => Ret grid
  | i :: rest' =>
      if negb (length i =? 9) || negb (isdigit i) then
        let* k := index data i in
        Raise (ValueError (InvalidGridRow k i))
      else
        let* numbers := comprehension int i in
        load_rows data rest' (grid ++ [numbers])
  end.

(** [f] is what the file object yields, line by line. *)
Definition load_grid (path : ustr) : result Grid :=
  let* f := from_host (read_lines h path) in
  let data := filter (fun l => truthy l) (map strip f) in
  load_rows data data [].

(** ** [Sudoku.__init__] *)

Definition __init__ (path : ustr) : result Sudoku :=
  let* g := load_grid path in
  Ret (mkSudoku g false 0%float 0%float).

End Loading.

(** ** [test_solver] *)

Section Harness.

Variable h : Host.
Variable clock : nat -> float.

(** The loop [for f in files]: one fresh [Sudoku] per name of the
    listing, opened under ['sudokus_test/'] whatever directory was
    listed, on the clock shared by all of them; [times] collects
    [solver.time_taken()]. *)
Fixpoint test_loop (fuel : nat) (files : list ustr) (times : list float)
    (now : nat) : result (list float * nat) :=
  match files with
  | [] => Ret (times, now)
  | f :: files' =>
      let* solver := __init__ h (codes "sudokus_test/" ++ f) in
      let* r := solve clock fuel (mkWorld solver now) in
      let '(_, w) := r in
      test_loop fuel files' (times ++ [time_taken (self w)]) (ticks w)
  end.

(** [sum(times) / len(times)]: of an empty list the sum is the int 0,
    and the division is one of ints. *)
Definition mean (times : list float) : result float :=
  match times with
  | [] => Raise ZeroDivisionError
  | _ => Ret (sum_floats h times / float_of_nat (length times))%float
  end.

(** The result is the average that [test_solver] prints. *)
Definition test_solver (fuel : nat) (path : ustr) (now : nat)
  : result (float * nat) :=
  let* files := from_host (listdir h path) in
  let* r := test_loop fuel files [] now in
  let '(times, now') := r in
  let* m := mean times in
  Ret (round m 2, now').

End Harness.

(** * The vocabulary of the properties *)

(** What [self.grid[i][j]] holds, when both indices are in range. *)
Definition peek (g : Grid) (i j : nat) : option Z :=
  match g !! i with
  | Some row => row !! j
  | None => None
  end.

Definition get (g : Grid) (i j : nat) : Z := default 0%Z (peek g i j).

(** The grid after [self.grid[i][j] = v], when both indices are in range. *)
Definition put (g : Grid) (i j : nat) (v : Z) : Grid :=
  match g !! i with
  | Some row => <[i := <[j := v]> row]> g
  | None => g
  end.

(** Nine rows of nine cells. *)
Definition wf9 (g : Grid) : Prop :=
  length g = 9 ∧ Forall (fun row : list Z => length row = 9) g.

(** No cell of row [r], of column [c] or of the 3x3 region of [(r, c)],
    other than [(r, c)] itself, holds [d]. *)
Definition no_conflict (g : Grid) (d : Z) (r c : nat) : Prop :=
  (∀ j, j < 9 → j ≠ c → get g r j ≠ d) ∧
  (∀ i, i < 9 → i ≠ r → get g i c ≠ d) ∧
  (∀ i j, 3 * (r / 3) ≤ i < 3 * (r / 3) + 3 →
          3 * (c / 3) ≤ j < 3 * (c / 3) + 3 →
          (i, j) ≠ (r, c) → get g i j ≠ d).

(** Two cells that share a row, a column or a region. *)
Definition peer (p q : nat * nat) : Prop :=
  p.1 = q.1 ∨ p.2 = q.2 ∨ (p.1 / 3 = q.1 / 3 ∧ p.2 / 3 = q.2 / 3).

(** A recursive call that, when it fails, leaves the world as it found it. *)
Definition restores (rec : M bool) : Prop :=
  ∀ w w', rec w = Ret (false, w') → w' = w.

(** The world after the base case of [recursive_solve]. *)
Definition stamp (clock : nat → float) (w : World) : World :=
  let s := self w in
  mkWorld (mkSudoku (grid s) (solved s) (start s) (clock (ticks w) - start s)%float)
          (S (ticks w)).

(** Every cell that was empty holds a digit that conflicts with no peer;
    every other cell is as it was; no cell is empty. *)
Definition completes (g g' : Grid) : Prop :=
  wf9 g' ∧
  (∀ i j, i < 9 → j < 9 → get g i j ≠ 0%Z → get g' i j = get g i j) ∧
  (∀ i j, i < 9 → j < 9 → get g' i j ≠ 0%Z) ∧
  (∀ i j, i < 9 → j < 9 → get g i j = 0%Z →
          (1 ≤ get g' i j ≤ 9)%Z ∧ no_conflict g' (get g' i j) i j).

(** The number of empty cells. *)
Definition count_empty (g : Grid) : nat :=
  length (filter (fun x => x = 0%Z) (concat g)).

(** Two runs agree on the verdict and on the grid they leave. *)
Definition same_outcome (rec1 rec2 : M bool) : Prop :=
  ∀ w1 w2 b1 b2 w1' w2',
    grid (self w1) = grid (self w2) →
    rec1 w1 = Ret (b1, w1') → rec2 w2 = Ret (b2, w2') →
    b1 = b2 ∧ grid (self w1') = grid (self w2').

(** The world after [self.start = perf_counter()]. *)
Definition started (clock : nat → float) (w : World) : World :=
  let s := self w in
  mkWorld (mkSudoku (grid s) (solved s) (clock (ticks w)) (time s)) (S (ticks w)).

(** [solve] reports success. *)
Definition solved_by (clock : nat → float) (fuel : nat) (w : World) (g' : Grid) : Prop :=
  ∃ ms w', solve clock fuel w = Ret ((GridSolvedIn ms, g'), w').

(** [solve] reports that the grid is unsolvable. *)
Definition unsolvable_by (clock : nat → float) (fuel : nat) (w : World) (g' : Grid) : Prop :=
  ∃ w', solve clock fuel w = Ret ((GridIsUnsolvable, g'), w').

Definition row_cells (r : nat) : list (nat * nat) :=
  (fun j => (r, j)) <$> seq 0 9.

Definition col_cells (c : nat) : list (nat * nat) :=
  (fun i => (i, c)) <$> seq 0 9.

(** The region whose origin is [(3 * br, 3 * bc)]. *)
Definition region_cells (br bc : nat) : list (nat * nat) :=
  seq (3 * br) 3 ≫= fun i => (fun j => (i, j)) <$> seq (3 * bc) 3.

Definition vals (g : Grid) (cells : list (nat * nat)) : list Z :=
  (fun p => get g p.1 p.2) <$> cells.

(** The values are exactly the set {1..9}, with no repeats. *)
Definition valid_group (l : list Z) : Prop :=
  NoDup l ∧ ∀ x, x ∈ l ↔ (1 ≤ x ≤ 9)%Z.

Definition solved_grid (g : Grid) : Prop :=
  (∀ r, r < 9 → valid_group (vals g (row_cells r))) ∧
  (∀ c, c < 9 → valid_group (vals g (col_cells c))) ∧
  (∀ br bc, br < 3 → bc < 3 → valid_group (vals g (region_cells br bc))).

(** Every cell holds a digit that conflicts with no peer. *)
Definition all_cells_ok (g : Grid) : Prop :=
  ∀ i j, i < 9 → j < 9 →
         (1 ≤ get g i j ≤ 9)%Z ∧ no_conflict g (get g i j) i j.

(** Nine distinct cells of the grid, any two of them peers. *)
Definition is_unit (cells : list (nat * nat)) : Prop :=
  NoDup cells ∧ length cells = 9 ∧
  (∀ p, p ∈ cells → p.1 < 9 ∧ p.2 < 9) ∧
  (∀ p q, p ∈ cells → q ∈ cells → peer p q).

(** A solved grid with its last cell emptied. *)
Definition sample_grid : Grid :=
  [[5; 3; 4; 6; 7; 8; 9; 1; 2];
   [6; 7; 2; 1; 9; 5; 3; 4; 8];
   [1; 9; 8; 3; 4; 2; 5; 6; 7];
   [8; 5; 9; 7; 6; 1; 4; 2; 3];
   [4; 2; 6; 8; 5; 3; 7; 9; 1];
   [7; 1; 3; 9; 2; 4; 8; 5; 6];
   [9; 6; 1; 5; 3; 7; 2; 8; 4];
   [2; 8; 7; 4; 1; 9; 6; 3; 5];
   [3; 4; 5; 2; 8; 6; 1; 7; 0]]%Z.

Definition sample_solution : Grid := put sample_grid 8 8 9.

(** The same grid with a second 9 in the last column: no digit fits the
    empty cell. *)
Definition stuck_grid : Grid := put sample_grid 0 8 9.

(** [stuck_grid] with the last three cells emptied: 1 fits the first
    of them, then 7 the second, and no digit the third. *)
Definition backtrack_grid : Grid := put (put stuck_grid 8 6 0) 8 7 0.

(** The same grid with a second 5 at the start of row 0. *)
Definition clash_grid : Grid := put sample_grid 0 1 5.

(** A full grid of ones. *)
Definition ones_grid : Grid := replicate 9 (replicate 9 1%Z).

(** A clock that stands still, and the object [__init__] builds around
    a grid. *)
Definition still : nat → float := fun _ => 0%float.

Definition fresh (g : Grid) : World := mkWorld (mkSudoku g false 0%float 0%float) 0.

(** A 9x9 grid that extends [g] and is a solved Sudoku. *)
Definition valid_completion (g t : Grid) : Prop :=
  wf9 t ∧ solved_grid t ∧
  ∀ i j, i < 9 → j < 9 → get g i j ≠ 0%Z → get t i j = get g i j.

Definition all_cellsb (f : nat → nat → bool) : bool :=
  forallb (fun i => forallb (fun j => f i j) (seq 0 9)) (seq 0 9).

Definition wf9b (g : Grid) : bool :=
  (length g =? 9) && forallb (fun row : list Z => length row =? 9) g.

Definition cell_okb (g : Grid) (i j : nat) : bool :=
  let v := get g i j in
  (1 <=? v)%Z && (v <=? 9)%Z &&
  match check g v (i, j) with Ret true => true | _ => false end.

Definition all_cells_okb (g : Grid) : bool := all_cellsb (cell_okb g).

Definition extendsb (g t : Grid) : bool :=
  all_cellsb (fun i j => (get g i j =? 0)%Z || (get t i j =? get g i j)%Z).

Definition valid_completionb (g t : Grid) : bool :=
  wf9b t && all_cells_okb t && extendsb g t.

(** Whether the printed line reports success. *)
Definition verdict (said : report) : bool :=
  match said with
  | GridIsUnsolvable => false
  | GridSolvedIn _ => true
  end.

(** A second object around the same sample grid, later on another clock. *)
Definition later : nat → float := float_of_nat.

Definition reused (g : Grid) : World := mkWorld (mkSudoku g true 3%float 7%float) 5.

(** A clock that shows the tenths of a second. *)
Definition tenths : nat → float := fun n => (float_of_nat n / 10)%float.

(** The given cells hold digits, and no two of them that share a row, a
    column or a region hold the same digit. *)
Definition givens_consistent (g : Grid) : Prop :=
  ∀ i j, i < 9 → j < 9 → get g i j ≠ 0%Z →
         (1 ≤ get g i j ≤ 9)%Z ∧ no_conflict g (get g i j) i j.

Definition givens_consistentb (g : Grid) : bool :=
  all_cellsb (fun i j => (get g i j =? 0)%Z || cell_okb g i j).

(** The grid of the third example scenario: row 0 is 119000000 and every
    other cell is empty. *)
Definition row119_grid : Grid :=
  [1; 1; 9; 0; 0; 0; 0; 0; 0]%Z :: replicate 8 (replicate 9 0%Z).

(** The non-blank lines of the source, stripped: [data] in [load_grid]. *)
Definition nonblank (h : Host) (f : list ustr) : list ustr :=
  filter (fun l => truthy l) (map (strip h) f).

(** The row [load_grid] rejects: not nine characters, or a character
    that [str.isdigit] does not accept. *)
Definition malformed (h : Host) (s : ustr) : Prop :=
  length s ≠ 9 ∨ isdigit h s = false.

(** Nine decimal digits: nine characters that [str.isdigit] accepts and
    in which [int] reads a value. *)
Definition decimal9 (h : Host) (s : ustr) : Prop :=
  ¬ malformed h s ∧ Forall (fun c => is_Some (decimal h c)) s.


(** The row of numbers a line of decimal digits stands for. *)
Definition digits (h : Host) (s : ustr) : list Z :=
  (fun c => default 0%Z (decimal h c)) <$> s.

(** A line of a text file, as the file object yields it. *)
Definition line (s : string) : ustr := codes s ++ [10%N].

(** The sources of [sample_grid] and of [stuck_grid]. *)
Definition sample_file : list ustr :=
  line <$> ["534678912"; "672195348"; "198342567"; "859761423"; "426853791";
            "713924856"; "961537284"; "287419635"; "345286170"].

Definition stuck_file : list ustr :=
  line <$> ["534678919"; "672195348"; "198342567"; "859761423"; "426853791";
            "713924856"; "961537284"; "287419635"; "345286170"].

(** A fragment of the Unicode database: the white space of
    [str.isspace]; the digits '0'..'9' and the Arabic-Indic digits
    U+0660..U+0669, which are decimal; the superscripts U+00B2, U+00B3
    and U+00B9 and the circled digits U+2460..U+2468, which
    [str.isdigit] accepts and in which [int] reads no value. *)
Definition sample_isspace (c : N) : bool :=
  ((9 <=? c) && (c <=? 13) || (28 <=? c) && (c <=? 32) || (c =? 133) || (c =? 160)
   || (c =? 5760) || (8192 <=? c) && (c <=? 8202) || (c =? 8232) || (c =? 8233)
   || (c =? 8239) || (c =? 8287) || (c =? 12288))%N.

Definition sample_decimal (c : N) : option Z :=
  if ((48 <=? c) && (c <=? 57))%N then Some (Z.of_N (c - 48))
  else if ((1632 <=? c) && (c <=? 1641))%N then Some (Z.of_N (c - 1632))
  else None.

Definition sample_isdigit (c : N) : bool :=
  ((48 <=? c) && (c <=? 57) || (1632 <=? c) && (c <=? 1641)
   || (c =? 178) || (c =? 179) || (c =? 185)
   || (9312 <=? c) && (c <=? 9320))%N.

(** A file system that holds the listed files and directories and
    nothing else. *)
Fixpoint lookup_path {A} (table : list (ustr * A)) (path : ustr) : external + A :=
  match table with
  | [] => inl FileNotFoundError
  | (p, a) :: table' => if str_eqb p path then inr a else lookup_path table' path
  end.

(** An interpreter whose [sum] adds from left to right, on that file
    system. *)
Definition sample_host (files dirs : list (ustr * list ustr)) : Host :=
  {| isspace_char := sample_isspace;
     isdigit_char := sample_isdigit;
     decimal := sample_decimal;
     decimal_range := ltac:(
       intros c v; unfold sample_decimal;
       destruct ((48 <=? c) && (c <=? 57))%N eqn:E1;
         [apply andb_true_iff in E1 as [?%N.leb_le ?%N.leb_le]; intros [= <-]; lia|];
       destruct ((1632 <=? c) && (c <=? 1641))%N eqn:E2;
         [apply andb_true_iff in E2 as [?%N.leb_le ?%N.leb_le]; intros [= <-]; lia|];
       discriminate);
     sum_floats := fun l => fold_left PrimFloat.add l 0%float;
     read_lines := lookup_path files;
     listdir := lookup_path dirs |}.

(** The line of the Arabic-Indic digits one to nine, and a line that
    begins with the superscript two. *)
Definition arabic_line : ustr := [1633; 1634; 1635; 1636; 1637; 1638; 1639; 1640; 1641; 10]%N.

Definition squared_line : ustr := 178%N :: line "23456789".

(** A disk: the directory [sudokus_test] with a puzzle that has no
    solution and one that has, a second directory whose entry is not in
    [sudokus_test], an empty directory, and some sources that do not
    load. *)
Definition sample_files : list (ustr * list ustr) :=
  [(codes "sudokus_test/stuck.txt", stuck_file);
   (codes "sudokus_test/sample.txt", sample_file);
   (codes "sudokus_test/short.txt", [line "12345678"]);
   (codes "grids/other.txt", sample_file);
   (codes "short.txt", [line "12345678"]);
   (codes "letter.txt", [line "123456789"; line "   "; line " 12345x789 "]);
   (codes "one.txt", [line "123456789"]);
   (codes "arabic.txt", [arabic_line; line "12345678"]);
   (codes "squared.txt", [line "123456789"; squared_line; line "12"]);
   (codes "spaced.txt", [line "123456789"; line "   "; line "12345x789"]);
   (codes "dense.txt", [line "123456789"; line "12345x789"])].

Definition sample_dirs : list (ustr * list ustr) :=
  [(codes "sudokus_test", [codes "stuck.txt"; codes "sample.txt"]);
   (codes "grids", [codes "other.txt"]);
   (codes "broken", [codes "sample.txt"; codes "short.txt"; codes "stuck.txt"]);
   (codes "empty", [])].

Definition sample_disk : Host := sample_host sample_files sample_dirs.
(** Row-major lexicographic order on the 81 cells of two grids: the
    grids agree, or the first cell at which they differ is smaller in
    the first. *)
Definition lex_le (g t : Grid) : Prop :=
  (∀ i j, i < 9 → j < 9 → get g i j = get t i j) ∨
  ∃ r c, r < 9 ∧ c < 9 ∧ (get g r c < get t r c)%Z ∧
         ∀ i j, i < 9 → j < 9 → i < r ∨ (i = r ∧ j < c) →
                get g i j = get t i j.

(** One of the 81 cells the solver reads is missing from the grid. *)
Definition lacks_cell (g : Grid) : Prop :=
  ∃ i j, i < 9 ∧ j < 9 ∧ peek g i j = None.

(** The empty grid: every cell is zero. *)
Definition zeros_grid : Grid := replicate 9 (replicate 9 0%Z).

(** The first eight rows of [sample_grid]. *)
Definition short_grid : Grid := take 8 sample_grid.

(** The outcome of a call on a grid, carried over to the grid with the
    rows [extra] appended. *)
Definition widen (extra : Grid) (r : result (bool * World)) : result (bool * World) :=
  match r with
  | Ret (b, w') => Ret (b, with_grid w' (grid (self w') ++ extra))
  | Raise e => Raise e
  | OutOfFuel => OutOfFuel
  end.

(** The first character of a line in which [int] reads no value. *)
Definition first_nondecimal (h : Host) (s : ustr) : option N :=
  List.find (fun c => match decimal h c with None => true | Some _ => false end) s.









(** * Properties *)

(** ** Reading and writing cells *)

Lemma cell_peek (g : Grid) i j :
  cell g i j = match peek g i j with Some v => Ret v | None => Raise IndexError end.
Proof.
  unfold cell, peek, getitem, bind.
  destruct (g !! i) as [row|]; [|done]. by destruct (row !! j).
Qed.

Lemma wf9_peek (g : Grid) i j :
  wf9 g → i < 9 → j < 9 → peek g i j = Some (get g i j).
Proof.
  intros [Hlen Hrows] Hi Hj. unfold get, peek.
  destruct (g !! i) as [row|] eqn:Hrow.
  - assert (length row = 9) as Hr.
    { eapply Forall_lookup_1 in Hrows; eauto. }
    destruct (row !! j) eqn:Hc; [done|].
    apply lookup_ge_None in Hc. lia.
  - apply lookup_ge_None in Hrow. lia.
Qed.

Lemma cell_get (g : Grid) i j :
  wf9 g → i < 9 → j < 9 → cell g i j = Ret (get g i j).
Proof. intros. rewrite cell_peek. by erewrite wf9_peek. Qed.

Lemma set_cell_put (g : Grid) i j v :
  set_cell g i j v =
  match peek g i j with Some _ => Ret (put g i j v) | None => Raise IndexError end.
Proof.
  unfold set_cell, peek, put, getitem, setitem, bind.
  destruct (g !! i) as [row|] eqn:Hrow; [|done].
  destruct (row !! j) eqn:Hc.
  - apply lookup_lt_Some in Hc. apply lookup_lt_Some in Hrow.
    destruct (Nat.ltb_spec j (length row)); [|lia].
    destruct (Nat.ltb_spec i (length g)); [done|lia].
  - apply lookup_ge_None in Hc.
    destruct (Nat.ltb_spec j (length row)); [lia|done].
Qed.

Lemma peek_put_eq (g : Grid) i j v :
  is_Some (peek g i j) → peek (put g i j v) i j = Some v.
Proof.
  unfold peek, put. destruct (g !! i) as [row|] eqn:Hrow; [|by intros [? ?]].
  intros [x Hx].
  rewrite list_lookup_insert_eq by (by eapply lookup_lt_Some).
  apply list_lookup_insert_eq. by eapply lookup_lt_Some.
Qed.

Lemma peek_put_ne (g : Grid) i j v i' j' :
  (i', j') ≠ (i, j) → peek (put g i j v) i' j' = peek g i' j'.
Proof.
  intros Hne. unfold peek, put.
  destruct (g !! i) as [row|] eqn:Hrow; [|done].
  destruct (decide (i' = i)) as [->|Hi].
  - rewrite list_lookup_insert_eq by (by eapply lookup_lt_Some).
    rewrite Hrow. apply list_lookup_insert_ne. congruence.
  - by rewrite list_lookup_insert_ne.
Qed.

Lemma put_id (g : Grid) i j v : peek g i j = Some v → put g i j v = g.
Proof.
  unfold peek, put. destruct (g !! i) as [row|] eqn:Hrow; [|done].
  intros Hc. rewrite (list_insert_id row j v Hc). by apply list_insert_id.
Qed.

Lemma put_put (g : Grid) i j v v' : put (put g i j v) i j v' = put g i j v'.
Proof.
  unfold put. destruct (g !! i) as [row|] eqn:Hrow; [|by rewrite Hrow].
  rewrite list_lookup_insert_eq by (by eapply lookup_lt_Some).
  by rewrite list_insert_insert_eq, list_insert_insert_eq.
Qed.

Lemma wf9_put (g : Grid) i j v : wf9 g → wf9 (put g i j v).
Proof.
  intros [Hlen Hrows]. unfold put.
  destruct (g !! i) as [row|] eqn:Hrow; [|done].
  split; [by rewrite length_insert|].
  apply Forall_insert; [done|]. rewrite length_insert.
  eapply Forall_lookup_1 in Hrows; eauto.
Qed.

Lemma get_put_eq (g : Grid) i j v :
  wf9 g → i < 9 → j < 9 → get (put g i j v) i j = v.
Proof.
  intros Hwf Hi Hj. unfold get at 1.
  rewrite peek_put_eq; [done|]. rewrite wf9_peek; eauto.
Qed.

Lemma get_put_ne (g : Grid) i j v i' j' :
  (i', j') ≠ (i, j) → get (put g i j v) i' j' = get g i' j'.
Proof. intros Hne. unfold get. by rewrite peek_put_ne. Qed.

(** ** The placement check *)

(** Arithmetic with the quotients by 3 of the indices at hand. *)
Tactic Notation "div3" constr(x) :=
  pose proof (Nat.div_mod_eq x 3);
  pose proof (Nat.mod_upper_bound x 3 ltac:(lia)).

Lemma region_bounds r i :
  3 * (r / 3) ≤ i < 3 * (r / 3) + 3 ↔ i / 3 = r / 3.
Proof. div3 r. div3 i. lia. Qed.

Lemma check_lines_spec (g : Grid) d col row ixs :
  wf9 g → col < 9 → row < 9 → Forall (fun i => i < 9) ixs →
  ∃ b, check_lines g d col row ixs = Ret b ∧
       (b = true ↔
        Forall (fun i => (i ≠ col → get g i row ≠ d) ∧
                         (i ≠ row → get g col i ≠ d)) ixs).
Proof.
  intros Hwf Hcol Hrow. induction 1 as [|i ixs Hi _ IH]; simpl.
  { exists true. split; [done|]. split; [constructor|done]. }
  destruct IH as (b & Hb & Hiff). rewrite Hb.
  rewrite !cell_get by done. unfold bind.
  setoid_rewrite Forall_cons.
  destruct (Nat.eqb_spec col i) as [Hci'|Hci]; simpl;
    [|destruct (Z.eqb_spec (get g i row) d) as [Hv|Hv]; simpl];
    try (exists false; split; [done|]; split; [done|];
         intros [[H1 _] _]; exfalso; apply H1; [congruence|done]).
  all: destruct (Nat.eqb_spec row i) as [Hri'|Hri]; simpl;
    [|destruct (Z.eqb_spec (get g col i) d) as [Hv'|Hv']; simpl];
    try (exists false; split; [done|]; split; [done|];
         intros [[_ H2] _]; exfalso; apply H2; [congruence|done]).
  all: exists b; split; [done|]; rewrite Hiff; intuition congruence.
Qed.

Lemma check_region_row_spec (g : Grid) d col row i js :
  wf9 g → i < 9 → Forall (fun j => j < 9) js →
  ∃ b, check_region_row g d col row i js = Ret b ∧
       (b = true ↔ Forall (fun j => (i, j) ≠ (col, row) → get g i j ≠ d) js).
Proof.
  intros Hwf Hi. induction 1 as [|j js Hj _ IH]; simpl.
  { exists true. split; [done|]. split; [constructor|done]. }
  destruct IH as (b & Hb & Hiff). rewrite Hb.
  rewrite !cell_get by done. unfold bind.
  setoid_rewrite Forall_cons.
  destruct (Z.eqb_spec (get g i j) d) as [Hv|Hv]; simpl.
  - destruct (Nat.eqb_spec i col) as [Hic'|Hic]; simpl;
      [destruct (Nat.eqb_spec j row) as [Hjr'|Hjr]; simpl|].
    + exists b. split; [done|]. rewrite Hiff. intuition congruence.
    + exists false. split; [done|]. split; [done|].
      intros [H1 _]. exfalso. apply H1; [congruence|done].
    + exists false. split; [done|]. split; [done|].
      intros [H1 _]. exfalso. apply H1; [congruence|done].
  - exists b. split; [done|]. rewrite Hiff. intuition congruence.
Qed.

Lemma check_region_spec (g : Grid) d col row ixs js :
  wf9 g → Forall (fun i => i < 9) ixs → Forall (fun j => j < 9) js →
  ∃ b, check_region g d col row ixs js = Ret b ∧
       (b = true ↔
        Forall (fun i =>
          Forall (fun j => (i, j) ≠ (col, row) → get g i j ≠ d) js) ixs).
Proof.
  intros Hwf Hixs Hjs. induction Hixs as [|i ixs Hi _ IH]; simpl.
  { exists true. split; [done|]. split; [constructor|done]. }
  destruct IH as (b & Hb & Hiff). rewrite Hb.
  destruct (check_region_row_spec g d col row i js Hwf Hi Hjs)
    as (b' & Hb' & Hiff').
  rewrite Hb'. unfold bind. setoid_rewrite Forall_cons.
  destruct b'.
  - exists b. split; [done|]. rewrite Hiff. intuition.
  - exists false. split; [done|]. split; [done|].
    intros [H1 _]. apply Hiff' in H1. done.
Qed.

Lemma Forall_seq (P : nat → Prop) a n :
  Forall P (seq a n) ↔ ∀ i, a ≤ i < a + n → P i.
Proof.
  rewrite Forall_forall. setoid_rewrite elem_of_seq. done.
Qed.

(** On a 9x9 grid [check] returns, and says whether the digit is free. *)
Lemma check_spec (g : Grid) d r c :
  wf9 g → r < 9 → c < 9 →
  ∃ b, check g d (r, c) = Ret b ∧ (b = true ↔ no_conflict g d r c).
Proof.
  intros Hwf Hr Hc. unfold check.
  destruct (check_lines_spec g d r c (seq 0 9) Hwf Hr Hc) as (b1 & Hb1 & H1).
  { apply Forall_seq. lia. }
  destruct (check_region_spec g d r c (seq (r / 3 * 3) 3) (seq (c / 3 * 3) 3) Hwf)
    as (b2 & Hb2 & H2).
  { apply Forall_seq. div3 r. lia. }
  { apply Forall_seq. div3 c. lia. }
  rewrite Hb1. unfold bind. rewrite Forall_seq in H1. rewrite Forall_seq in H2.
  setoid_rewrite Forall_seq in H2.
  assert (b2 = true ↔
    ∀ i j, 3 * (r / 3) ≤ i < 3 * (r / 3) + 3 →
           3 * (c / 3) ≤ j < 3 * (c / 3) + 3 →
           (i, j) ≠ (r, c) → get g i j ≠ d) as H2'.
  { rewrite H2. split; intros H i; [intros j ? ?|intros ? j ?]; apply H; lia. }
  unfold no_conflict. destruct b1.
  - exists b2. split; [done|]. rewrite H2'.
    destruct H1 as [H1 _]. specialize (H1 eq_refl).
    split; [|tauto]. intros H. split_and!; [| |done].
    + intros j Hj Hne. apply (H1 j); [lia|done].
    + intros i Hi Hne. apply (H1 i); [lia|done].
  - exists false. split; [done|]. split; [done|].
    intros (Hrow & Hcol & _). apply H1. intros i Hi. split.
    + intros. apply Hcol; [lia|done].
    + intros. apply Hrow; [lia|done].
Qed.

Lemma peer_sym p q : peer p q → peer q p.
Proof. unfold peer. intuition. Qed.

(** The three scans of [check] cover the peers of the cell. *)
Lemma no_conflict_peer (g : Grid) d r c :
  r < 9 → c < 9 →
  no_conflict g d r c ↔
  ∀ i j, i < 9 → j < 9 → (i, j) ≠ (r, c) → peer (r, c) (i, j) → get g i j ≠ d.
Proof.
  intros Hr Hc. unfold no_conflict, peer; cbn [fst snd]. split.
  - intros (Hrow & Hcol & Hreg) i j Hi Hj Hne [<-|[<-|[Hi3 Hj3]]].
    + apply Hrow; [done|congruence].
    + apply Hcol; [done|congruence].
    + apply Hreg; [by apply region_bounds|by apply region_bounds|done].
  - intros H. split_and!.
    + intros j Hj Hne. apply H; [done|done|congruence|by left].
    + intros i Hi Hne. apply H; [done|done|congruence|by right; left].
    + intros i j Hi Hj Hne. apply H; [div3 r; lia|div3 c; lia|done|].
      right; right. by rewrite !region_bounds in *.
Qed.

(** ** The scan for an empty cell *)

Lemma find_in_row_Some (g : Grid) i n : ∀ a p,
  find_in_row g i (seq a n) = Ret (Some p) →
  ∃ j, p = (i, j) ∧ a ≤ j < a + n ∧ peek g i j = Some 0%Z ∧
       ∀ j', a ≤ j' < j → ∃ v, peek g i j' = Some v ∧ v ≠ 0%Z.
Proof.
  induction n as [|n IH]; intros a p; simpl; [done|].
  rewrite cell_peek. destruct (peek g i a) as [v|] eqn:Hv; simpl; [|done].
  destruct (Z.eqb_spec v 0) as [->|Hv0].
  - intros [= <-]. exists a. split_and!; [done|lia|lia|done|]. intros; lia.
  - intros (j & -> & Hj & H0 & Hbefore)%IH.
    exists j. split_and!; [done|lia|lia|done|].
    intros j' Hj'. destruct (decide (j' = a)) as [->|]; [eauto|].
    apply Hbefore. lia.
Qed.

Lemma find_in_row_None (g : Grid) i n : ∀ a,
  find_in_row g i (seq a n) = Ret None →
  ∀ j, a ≤ j < a + n → ∃ v, peek g i j = Some v ∧ v ≠ 0%Z.
Proof.
  induction n as [|n IH]; intros a; simpl; [intros; lia|].
  rewrite cell_peek. destruct (peek g i a) as [v|] eqn:Hv; simpl; [|done].
  destruct (Z.eqb_spec v 0) as [->|Hv0]; [done|].
  intros Hrest j Hj. destruct (decide (j = a)) as [->|]; [eauto|].
  apply (IH _ Hrest). lia.
Qed.

Lemma find_in_row_total (g : Grid) i n : ∀ a,
  (∀ j, a ≤ j < a + n → is_Some (peek g i j)) →
  ∃ r, find_in_row g i (seq a n) = Ret r.
Proof.
  induction n as [|n IH]; intros a Hin; simpl; [eauto|].
  rewrite cell_peek. destruct (Hin a) as [v ->]; [lia|]. simpl.
  destruct (v =? 0)%Z; [eauto|]. apply IH. intros; apply Hin; lia.
Qed.

Lemma find_in_rows_Some (g : Grid) n : ∀ a p,
  find_in_rows g (seq a n) = Ret (Some p) →
  ∃ i j, p = (i, j) ∧ a ≤ i < a + n ∧ j < 9 ∧ peek g i j = Some 0%Z ∧
         ∀ i' j', j' < 9 → (a ≤ i' < i ∨ (i' = i ∧ j' < j)) →
                  ∃ v, peek g i' j' = Some v ∧ v ≠ 0%Z.
Proof.
  induction n as [|n IH]; intros a p; [done|].
  change (seq a (S n)) with (a :: seq (S a) n); cbn [find_in_rows].
  destruct (find_in_row g a (seq 0 9)) as [[q|]| |] eqn:Hrow; cbn [bind]; [| |done..].
  - intros [= <-]. apply find_in_row_Some in Hrow as (j & -> & Hj & H0 & Hb).
    exists a, j. split_and!; [done|lia|lia|lia|done|].
    intros i' j' Hj' [?|[-> ?]]; [lia|]. apply Hb; lia.
  - intros (i & j & -> & Hi & Hj & H0 & Hb)%IH.
    exists i, j. split_and!; [done|lia|lia|done|done|].
    intros i' j' Hj' Hlt. destruct (decide (i' = a)) as [->|].
    + eapply find_in_row_None; [done|lia].
    + apply Hb; [done|lia].
Qed.

Lemma find_in_rows_None (g : Grid) n : ∀ a,
  find_in_rows g (seq a n) = Ret None →
  ∀ i j, a ≤ i < a + n → j < 9 → ∃ v, peek g i j = Some v ∧ v ≠ 0%Z.
Proof.
  induction n as [|n IH]; intros a; [intros; lia|].
  change (seq a (S n)) with (a :: seq (S a) n); cbn [find_in_rows].
  destruct (find_in_row g a (seq 0 9)) as [[q|]| |] eqn:Hrow; cbn [bind]; [done| |done..].
  intros Hrest i j Hi Hj. destruct (decide (i = a)) as [->|].
  - eapply find_in_row_None; [done|lia].
  - apply (IH _ Hrest); [lia|done].
Qed.

Lemma find_in_rows_total (g : Grid) n : ∀ a,
  (∀ i j, a ≤ i < a + n → j < 9 → is_Some (peek g i j)) →
  ∃ r, find_in_rows g (seq a n) = Ret r.
Proof.
  induction n as [|n IH]; intros a Hin; [simpl; eauto|].
  change (seq a (S n)) with (a :: seq (S a) n); cbn [find_in_rows].
  destruct (find_in_row_total g a 9 0) as [r ->].
  { intros; apply Hin; lia. }
  cbn [bind]. destruct r; [eauto|]. apply IH. intros; apply Hin; lia.
Qed.

(** [find_empty_cell] returns the first zero in row-major order. *)
Lemma find_empty_cell_Some (g : Grid) r c :
  find_empty_cell g = Ret (Some (r, c)) →
  r < 9 ∧ c < 9 ∧ peek g r c = Some 0%Z ∧
  ∀ i j, j < 9 → i < r ∨ (i = r ∧ j < c) →
         ∃ v, peek g i j = Some v ∧ v ≠ 0%Z.
Proof.
  intros (i & j & [= -> ->] & Hi & Hj & H0 & Hb)%find_in_rows_Some.
  split_and!; [lia|done|done|].
  intros i' j' Hj' Hlt. apply Hb; [done|lia].
Qed.

Lemma find_empty_cell_None (g : Grid) :
  find_empty_cell g = Ret None →
  ∀ i j, i < 9 → j < 9 → ∃ v, peek g i j = Some v ∧ v ≠ 0%Z.
Proof.
  intros H i j Hi Hj. eapply find_in_rows_None; [done|lia|done].
Qed.

Lemma find_empty_cell_total (g : Grid) :
  wf9 g → ∃ r, find_empty_cell g = Ret r.
Proof.
  intros Hwf. apply find_in_rows_total. intros i j Hi Hj.
  rewrite wf9_peek; [eauto|done|lia|done].
Qed.

(** ** One step of the search *)

Lemma with_grid_id w : with_grid w (grid (self w)) = w.
Proof. by destruct w as [[] ?]. Qed.

Lemma with_grid_twice w g1 g2 : with_grid (with_grid w g1) g2 = with_grid w g2.
Proof. done. Qed.

Lemma grid_with_grid w g : grid (self (with_grid w g)) = g.
Proof. done. Qed.

Section Search.

Variable clock : nat → float.

Lemma recursive_solve_S fuel w :
  recursive_solve clock (S fuel) w =
  match find_empty_cell (grid (self w)) with
  | Ret (Some (row, col)) =>
      solve_loop (recursive_solve clock fuel) row col (range 1 10) w
  | Ret None => Ret (true, stamp clock w)
  | Raise e => Raise e
  | OutOfFuel => OutOfFuel
  end.
Proof.
  cbn [recursive_solve]. unfold sbind at 1. unfold on_grid.
  destruct (find_empty_cell (grid (self w))) as [[[row col]|]| |]; done.
Qed.

(** One iteration of the loop at an empty cell, when failed recursive
    calls restore the world: the retraction [self.grid[row][col] = 0]
    brings back the grid the iteration started from. *)
Lemma solve_loop_cons rec row col i candidates w :
  restores rec →
  peek (grid (self w)) row col = Some 0%Z →
  solve_loop rec row col (i :: candidates) w =
  match check (grid (self w)) i (row, col) with
  | Ret true =>
      match rec (with_grid w (put (grid (self w)) row col i)) with
      | Ret (true, w') => Ret (true, w')
      | Ret (false, _) => solve_loop rec row col candidates w
      | Raise e => Raise e
      | OutOfFuel => OutOfFuel
      end
  | Ret false => solve_loop rec row col candidates w
  | Raise e => Raise e
  | OutOfFuel => OutOfFuel
  end.
Proof.
  intros Hrec H0. cbn [solve_loop]. unfold sbind at 1. unfold on_grid.
  destruct (check (grid (self w)) i (row, col)) as [[|]| |]; cbn [bind]; try done.
  unfold sbind at 1. unfold write_cell at 1. rewrite set_cell_put, H0. cbn [bind].
  unfold sbind at 1.
  destruct (rec (with_grid w (put (grid (self w)) row col i)))
    as [[[|] w2]| |] eqn:Hcall; try done.
  apply Hrec in Hcall as ->.
  unfold sbind at 1. unfold write_cell at 1. rewrite grid_with_grid, set_cell_put.
  rewrite peek_put_eq by (rewrite H0; eauto). cbn [bind].
  by rewrite put_put, with_grid_twice, (put_id _ _ _ _ H0), with_grid_id.
Qed.

Lemma solve_loop_restores rec row col candidates :
  restores rec →
  ∀ w w', peek (grid (self w)) row col = Some 0%Z →
          solve_loop rec row col candidates w = Ret (false, w') → w' = w.
Proof.
  intros Hrec w w' H0. induction candidates as [|i candidates IH].
  - by intros [= <-].
  - rewrite solve_loop_cons by done.
    destruct (check _ _ _) as [[|]| |]; try done.
    destruct (rec _) as [[[|] w2]| |]; done.
Qed.

Lemma recursive_solve_restores fuel : restores (recursive_solve clock fuel).
Proof.
  induction fuel as [|fuel IH]; intros w w'; [done|].
  rewrite recursive_solve_S.
  destruct (find_empty_cell _) as [[[row col]|]| |] eqn:Hfind; try done.
  apply find_empty_cell_Some in Hfind as (_ & _ & H0 & _).
  by apply solve_loop_restores.
Qed.

(** The loop succeeds through one candidate that passes the check and
    whose recursive call succeeds. *)
Lemma solve_loop_true rec row col candidates w w' :
  restores rec →
  peek (grid (self w)) row col = Some 0%Z →
  solve_loop rec row col candidates w = Ret (true, w') →
  ∃ i, i ∈ candidates ∧ check (grid (self w)) i (row, col) = Ret true ∧
       rec (with_grid w (put (grid (self w)) row col i)) = Ret (true, w').
Proof.
  intros Hrec H0. induction candidates as [|i candidates IH]; [done|].
  rewrite solve_loop_cons by done.
  destruct (check _ _ _) as [[|]| |] eqn:Hcheck; try done.
  - destruct (rec _) as [[[|] w2]| |] eqn:Hcall; try done.
    + intros [= <-]. exists i. split_and!; [left|done|done].
    + intros (i' & ? & ? & ?)%IH. exists i'. split_and!; [by right|done|done].
  - intros (i' & ? & ? & ?)%IH. exists i'. split_and!; [by right|done|done].
Qed.

(** The loop fails only when every candidate fails the check or its
    recursive call fails. *)
Lemma solve_loop_false rec row col candidates w w' :
  restores rec →
  peek (grid (self w)) row col = Some 0%Z →
  solve_loop rec row col candidates w = Ret (false, w') →
  ∀ i, i ∈ candidates →
       check (grid (self w)) i (row, col) = Ret false ∨
       (check (grid (self w)) i (row, col) = Ret true ∧
        ∃ w1, rec (with_grid w (put (grid (self w)) row col i)) = Ret (false, w1)).
Proof.
  intros Hrec H0. induction candidates as [|i candidates IH].
  { intros _ i Hi. by apply elem_of_nil in Hi. }
  rewrite solve_loop_cons by done. intros Hloop i' Hi'.
  destruct (check _ i _) as [[|]| |] eqn:Hcheck; try done.
  - destruct (rec _) as [[[|] w2]| |] eqn:Hcall; try done.
    apply elem_of_cons in Hi' as [->|Hi']; [|by apply IH].
    right. eauto.
  - apply elem_of_cons in Hi' as [->|Hi']; [|by apply IH]. by left.
Qed.

(** The loop returns when every check and every recursive call does. *)
Lemma solve_loop_total rec row col candidates w :
  restores rec →
  peek (grid (self w)) row col = Some 0%Z →
  (∀ i, i ∈ candidates → ∃ b, check (grid (self w)) i (row, col) = Ret b) →
  (∀ i, i ∈ candidates →
        ∃ b w', rec (with_grid w (put (grid (self w)) row col i)) = Ret (b, w')) →
  ∃ b w', solve_loop rec row col candidates w = Ret (b, w').
Proof.
  intros Hrec H0. induction candidates as [|i candidates IH]; intros Hcheck Hcall.
  { by exists false, w. }
  rewrite solve_loop_cons by done.
  destruct (Hcheck i) as [b ->]; [left|].
  destruct (Hcall i) as (b' & w' & ->); [left|].
  destruct b; [destruct b'; [eauto|]|];
    (apply IH; [intros i' ?; apply Hcheck; by right
               |intros i' ?; apply Hcall; by right]).
Qed.

End Search.

(** ** What a finished search leaves in the grid *)

Lemma check_true_iff (g : Grid) d r c :
  wf9 g → r < 9 → c < 9 →
  check g d (r, c) = Ret true ↔ no_conflict g d r c.
Proof.
  intros Hwf Hr Hc.
  destruct (check_spec g d r c Hwf Hr Hc) as (b & -> & Hiff).
  rewrite <- Hiff. split; congruence.
Qed.

Lemma check_false_iff (g : Grid) d r c :
  wf9 g → r < 9 → c < 9 →
  check g d (r, c) = Ret false ↔ ¬ no_conflict g d r c.
Proof.
  intros Hwf Hr Hc.
  destruct (check_spec g d r c Hwf Hr Hc) as (b & -> & Hiff).
  rewrite <- Hiff. destruct b; split; congruence.
Qed.

Lemma elem_of_range a b d : d ∈ range a b ↔ (a ≤ d < b)%Z.
Proof.
  unfold range. rewrite list_elem_of_fmap. setoid_rewrite elem_of_seq. split.
  - intros (k & -> & Hk). lia.
  - intros Hd. exists (Z.to_nat (d - a)). lia.
Qed.

Lemma get_peek_zero (g : Grid) i j : peek g i j = Some 0%Z → get g i j = 0%Z.
Proof. unfold get. by intros ->. Qed.

Lemma completes_put (g g' : Grid) r c d :
  wf9 g → r < 9 → c < 9 → get g r c = 0%Z → (1 ≤ d ≤ 9)%Z →
  no_conflict g d r c →
  completes (put g r c d) g' → completes g g'.
Proof.
  intros Hwf Hr Hc H0 Hd Hfree (Hwf' & Hkeep & Hfull & Hplaced).
  assert (get g' r c = d) as Hrc.
  { rewrite Hkeep by (rewrite ?get_put_eq; done || lia). by apply get_put_eq. }
  split_and!; [done| |done|].
  - intros i j Hi Hj Hne.
    assert ((i, j) ≠ (r, c)) by congruence.
    rewrite Hkeep; rewrite ?get_put_ne; done.
  - intros i j Hi Hj Hz. destruct (decide ((i, j) = (r, c))) as [[= -> ->]|Hne].
    + rewrite Hrc. split; [done|]. apply no_conflict_peer; [done..|].
      intros i' j' Hi' Hj' Hne Hpeer.
      destruct (decide (get (put g r c d) i' j' = 0%Z)) as [Hz'|Hnz'].
      * destruct (Hplaced i' j' Hi' Hj' Hz') as [_ Hnc].
        rewrite no_conflict_peer in Hnc by done.
        specialize (Hnc r c Hr Hc). rewrite Hrc in Hnc.
        intros Heq. apply Hnc; [congruence|by apply peer_sym|done].
      * rewrite Hkeep by done. rewrite get_put_ne by done.
        rewrite no_conflict_peer in Hfree by done. by apply Hfree.
    + apply Hplaced; [done..|]. by rewrite get_put_ne.
Qed.

Section Soundness.

Variable clock : nat → float.

Lemma recursive_solve_wf9 fuel : ∀ w b w',
  wf9 (grid (self w)) →
  recursive_solve clock fuel w = Ret (b, w') → wf9 (grid (self w')).
Proof.
  induction fuel as [|fuel IH]; intros w b w' Hwf; [done|].
  destruct b; [|by intros ->%recursive_solve_restores].
  rewrite recursive_solve_S.
  destruct (find_empty_cell _) as [[[row col]|]| |] eqn:Hfind; try done.
  - apply find_empty_cell_Some in Hfind as (_ & _ & H0 & _).
    intros (i & _ & _ & Hcall)%solve_loop_true;
      [|apply recursive_solve_restores|done].
    eapply IH; [|done]. rewrite grid_with_grid. by apply wf9_put.
  - by intros [= <-].
Qed.

Lemma recursive_solve_sound fuel : ∀ w w',
  wf9 (grid (self w)) →
  recursive_solve clock fuel w = Ret (true, w') →
  completes (grid (self w)) (grid (self w')).
Proof.
  induction fuel as [|fuel IH]; intros w w' Hwf; [done|].
  rewrite recursive_solve_S.
  destruct (find_empty_cell _) as [[[row col]|]| |] eqn:Hfind; try done.
  - apply find_empty_cell_Some in Hfind as (Hr & Hc & H0 & _).
    intros (i & Hi & Hcheck & Hcall)%solve_loop_true;
      [|apply recursive_solve_restores|done].
    apply IH in Hcall; [|rewrite grid_with_grid; by apply wf9_put].
    rewrite grid_with_grid in Hcall.
    apply (completes_put _ _ row col i); [done|done|done|by apply get_peek_zero| | |done].
    + apply elem_of_range in Hi. lia.
    + by apply check_true_iff.
  - intros [= <-]. cbn. split_and!; [done|done| |].
    + intros i j Hi Hj.
      destruct (find_empty_cell_None _ Hfind i j Hi Hj) as (v & Hv & Hnz).
      unfold get. by rewrite Hv.
    + intros i j Hi Hj Hz.
      destruct (find_empty_cell_None _ Hfind i j Hi Hj) as (v & Hv & Hnz).
      unfold get in Hz. rewrite Hv in Hz. done.
Qed.

(** Whatever the shape of the grid and the verdict, a cell that held a
    non-zero value holds it still. *)
Lemma recursive_solve_keeps fuel : ∀ w b w' i j v,
  recursive_solve clock fuel w = Ret (b, w') →
  peek (grid (self w)) i j = Some v → v ≠ 0%Z →
  peek (grid (self w')) i j = Some v.
Proof.
  induction fuel as [|fuel IH]; intros w b w' i j v; [done|].
  destruct b; [|by intros ->%recursive_solve_restores].
  rewrite recursive_solve_S.
  destruct (find_empty_cell _) as [[[row col]|]| |] eqn:Hfind; try done.
  - apply find_empty_cell_Some in Hfind as (_ & _ & H0 & _).
    intros (d & _ & _ & Hcall)%solve_loop_true Hv Hnz;
      [|apply recursive_solve_restores|done].
    eapply IH; [done| |done]. rewrite grid_with_grid.
    rewrite peek_put_ne; [done|]. intros [= -> ->]. congruence.
  - by intros [= <-].
Qed.

End Soundness.

(** ** The measure of the search *)

Lemma count_zeros_insert (row : list Z) j d :
  row !! j = Some 0%Z → d ≠ 0%Z →
  length (filter (fun x => x = 0%Z) (<[j:=d]> row)) + 1 =
  length (filter (fun x => x = 0%Z) row).
Proof.
  intros Hj Hd.
  rewrite insert_take_drop by (by eapply lookup_lt_Some).
  rewrite <- (take_drop_middle row j 0%Z Hj) at 3.
  rewrite !filter_app, !length_app.
  rewrite filter_cons_False by done. rewrite filter_cons_True by done.
  simpl. lia.
Qed.

(** Placing a digit in an empty cell leaves one empty cell fewer. *)
Lemma count_empty_put (g : Grid) r c d :
  peek g r c = Some 0%Z → d ≠ 0%Z →
  count_empty (put g r c d) + 1 = count_empty g.
Proof.
  unfold peek, put, count_empty.
  destruct (g !! r) as [row|] eqn:Hrow; [|done]. intros Hc Hd.
  rewrite insert_take_drop by (by eapply lookup_lt_Some).
  rewrite <- (take_drop_middle g r row Hrow) at 3.
  rewrite !concat_app, !concat_cons, !filter_app, !length_app.
  pose proof (count_zeros_insert row c d Hc Hd). lia.
Qed.

Lemma length_concat_uniform (g : Grid) n :
  Forall (fun row : list Z => length row = n) g →
  length (concat g) = n * length g.
Proof.
  induction 1 as [|row g Hrow _ IH]; simpl; [lia|].
  rewrite length_app. lia.
Qed.

(** A 9x9 grid has at most 81 empty cells. *)
Lemma count_empty_bound (g : Grid) : wf9 g → count_empty g ≤ 81.
Proof.
  intros [Hlen Hrows]. unfold count_empty.
  etrans; [apply length_filter|].
  rewrite (length_concat_uniform g 9 Hrows). lia.
Qed.

Section Termination.

Variable clock : nat → float.

(** A call stack deeper than the number of empty cells is deep enough. *)
Lemma recursive_solve_total fuel : ∀ w,
  wf9 (grid (self w)) → count_empty (grid (self w)) < fuel →
  ∃ b w', recursive_solve clock fuel w = Ret (b, w').
Proof.
  induction fuel as [|fuel IH]; intros w Hwf Hfuel; [lia|].
  rewrite recursive_solve_S.
  destruct (find_empty_cell_total _ Hwf) as [[[row col]|] Hfind]; rewrite Hfind;
    [|eauto].
  apply find_empty_cell_Some in Hfind as (Hr & Hc & H0 & _).
  apply solve_loop_total; [apply recursive_solve_restores|done| |].
  - intros i _. destruct (check_spec _ i row col Hwf Hr Hc) as (b & ? & _). eauto.
  - intros i Hi%elem_of_range. apply IH.
    + rewrite grid_with_grid. by apply wf9_put.
    + rewrite grid_with_grid.
      pose proof (count_empty_put _ row col i H0). lia.
Qed.

End Termination.

(** ** Exhaustiveness of the search *)

Lemma completes_free (g t : Grid) r c :
  wf9 g → r < 9 → c < 9 → get g r c = 0%Z →
  completes g t → no_conflict g (get t r c) r c.
Proof.
  intros Hwf Hr Hc Hz (Hwf' & Hkeep & Hfull & Hplaced).
  destruct (Hplaced r c Hr Hc Hz) as [Hd Hnc].
  rewrite no_conflict_peer in Hnc |- * by done.
  intros i j Hi Hj Hne Hpeer Heq.
  apply (Hnc i j Hi Hj Hne Hpeer). rewrite Hkeep; [done..|]. lia.
Qed.

Lemma completes_step (g t : Grid) r c :
  wf9 g → r < 9 → c < 9 → get g r c = 0%Z →
  completes g t → completes (put g r c (get t r c)) t.
Proof.
  intros Hwf Hr Hc Hz (Hwf' & Hkeep & Hfull & Hplaced).
  split_and!; [done| |done|].
  - intros i j Hi Hj. destruct (decide ((i, j) = (r, c))) as [[= -> ->]|Hne].
    + by rewrite get_put_eq.
    + rewrite get_put_ne by done. by apply Hkeep.
  - intros i j Hi Hj. destruct (decide ((i, j) = (r, c))) as [[= -> ->]|Hne].
    + rewrite get_put_eq by done. intros Heq. by destruct (Hfull r c).
    + rewrite get_put_ne by done. by apply Hplaced.
Qed.

Section Completeness.

Variable clock : nat → float.

(** A search that fails has ruled out every way of filling the empty
    cells with digits that conflict with no peer. *)
Lemma recursive_solve_exhaustive fuel : ∀ w w' t,
  wf9 (grid (self w)) →
  recursive_solve clock fuel w = Ret (false, w') →
  ¬ completes (grid (self w)) t.
Proof.
  induction fuel as [|fuel IH]; intros w w' t Hwf; [done|].
  rewrite recursive_solve_S.
  destruct (find_empty_cell _) as [[[row col]|]| |] eqn:Hfind; try done.
  apply find_empty_cell_Some in Hfind as (Hr & Hc & H0 & _).
  intros Hloop Ht.
  pose proof (get_peek_zero _ _ _ H0) as Hz.
  assert (get t row col ∈ range 1 10) as Hd.
  { apply elem_of_range. destruct Ht as (_ & _ & _ & Hplaced).
    destruct (Hplaced row col Hr Hc Hz). lia. }
  destruct (solve_loop_false _ _ _ _ _ _ (recursive_solve_restores clock fuel)
              H0 Hloop _ Hd) as [Hcheck|(_ & w1 & Hcall)].
  - apply check_false_iff in Hcheck; [|done..].
    apply Hcheck. by apply completes_free.
  - apply (IH _ _ t) in Hcall; [|rewrite grid_with_grid; by apply wf9_put].
    apply Hcall. rewrite grid_with_grid. by apply completes_step.
Qed.

End Completeness.

(** ** The search depends on the grid alone *)

Lemma solve_loop_lockstep rec1 rec2 row col candidates :
  restores rec1 → restores rec2 → same_outcome rec1 rec2 →
  ∀ w1 w2 b1 b2 w1' w2',
    grid (self w1) = grid (self w2) →
    peek (grid (self w1)) row col = Some 0%Z →
    solve_loop rec1 row col candidates w1 = Ret (b1, w1') →
    solve_loop rec2 row col candidates w2 = Ret (b2, w2') →
    b1 = b2 ∧ grid (self w1') = grid (self w2').
Proof.
  intros Hrec1 Hrec2 Hsame w1 w2 b1 b2 w1' w2' Hg H0.
  induction candidates as [|i candidates IH].
  { intros [= <- <-] [= <- <-]. done. }
  rewrite !solve_loop_cons by (done || by rewrite <- Hg).
  rewrite <- Hg. destruct (check _ _ _) as [[|]| |]; try done.
  destruct (rec1 _) as [[c1 u1]| |] eqn:Hcall1; try done.
  destruct (rec2 _) as [[c2 u2]| |] eqn:Hcall2;
    try (by intros _; destruct c2); try (by destruct c1).
  assert (c1 = c2 ∧ grid (self u1) = grid (self u2)) as [<- Hu].
  { by eapply Hsame; [|done..]. }
  destruct c1; [|done]. by intros [= <- <-] [= <- <-].
Qed.

Lemma recursive_solve_same_outcome clock1 clock2 fuel1 : ∀ fuel2,
  same_outcome (recursive_solve clock1 fuel1) (recursive_solve clock2 fuel2).
Proof.
  induction fuel1 as [|fuel1 IH]; intros [|fuel2] w1 w2 b1 b2 w1' w2' Hg;
    try done.
  rewrite !recursive_solve_S, <- Hg.
  destruct (find_empty_cell _) as [[[row col]|]| |] eqn:Hfind; try done.
  - apply find_empty_cell_Some in Hfind as (_ & _ & H0 & _).
    by apply solve_loop_lockstep; try apply recursive_solve_restores.
  - by intros [= <- <-] [= <- <-].
Qed.

(** ** [solve] in terms of [recursive_solve] *)

Lemma solve_eq clock fuel w :
  solve clock fuel w =
  match recursive_solve clock fuel (started clock w) with
  | Ret (true, w') => Ret ((GridSolvedIn (time_taken (self w')), grid (self w')), w')
  | Ret (false, w') => Ret ((GridIsUnsolvable, grid (self w')), w')
  | Raise e => Raise e
  | OutOfFuel => OutOfFuel
  end.
Proof.
  unfold solve, sbind, perf_counter, set_start, get_self, sret. cbn.
  fold (started clock w).
  by destruct (recursive_solve clock fuel (started clock w)) as [[[|] w']| |].
Qed.

Lemma solved_by_inv clock fuel w g' :
  solved_by clock fuel w g' →
  ∃ w', recursive_solve clock fuel (started clock w) = Ret (true, w') ∧
        g' = grid (self w').
Proof.
  intros (ms & w' & Hsolve). rewrite solve_eq in Hsolve.
  destruct (recursive_solve _ _ _) as [[[|] w'']| |]; try done.
  injection Hsolve as _ <- <-. eauto.
Qed.

Lemma unsolvable_by_inv clock fuel w g' :
  unsolvable_by clock fuel w g' →
  ∃ w', recursive_solve clock fuel (started clock w) = Ret (false, w') ∧
        g' = grid (self w').
Proof.
  intros (w' & Hsolve). rewrite solve_eq in Hsolve.
  destruct (recursive_solve _ _ _) as [[[|] w'']| |]; try done.
  injection Hsolve as <- <-. eauto.
Qed.

(** ** Solved grids *)

Lemma elem_of_row_cells r p : p ∈ row_cells r ↔ p.1 = r ∧ p.2 < 9.
Proof.
  unfold row_cells. rewrite list_elem_of_fmap. setoid_rewrite elem_of_seq.
  destruct p as [i j]; simpl. split.
  - intros (j' & [= -> ->] & ?). lia.
  - intros [-> ?]. exists j. split; [done|lia].
Qed.

Lemma elem_of_col_cells c p : p ∈ col_cells c ↔ p.1 < 9 ∧ p.2 = c.
Proof.
  unfold col_cells. rewrite list_elem_of_fmap. setoid_rewrite elem_of_seq.
  destruct p as [i j]; simpl. split.
  - intros (i' & [= -> ->] & ?). lia.
  - intros [? ->]. exists i. split; [done|lia].
Qed.

Lemma elem_of_region_cells br bc p :
  p ∈ region_cells br bc ↔ p.1 / 3 = br ∧ p.2 / 3 = bc.
Proof.
  unfold region_cells. rewrite list_elem_of_bind.
  setoid_rewrite list_elem_of_fmap. setoid_rewrite elem_of_seq.
  destruct p as [i j]; cbn [fst snd]. split.
  - intros (i' & (j' & [= <- <-] & Hj) & Hi). div3 i. div3 j. lia.
  - intros [<- <-]. exists i. split; [exists j; split; [done|]|];
      div3 i; div3 j; lia.
Qed.

Lemma row_cells_unit r : r < 9 → is_unit (row_cells r).
Proof.
  intros Hr. split_and!.
  - apply NoDup_fmap_2_strong; [congruence|apply NoDup_seq].
  - done.
  - intros p [-> ?]%elem_of_row_cells. done.
  - intros p q [? _]%elem_of_row_cells [? _]%elem_of_row_cells.
    left. congruence.
Qed.

Lemma col_cells_unit c : c < 9 → is_unit (col_cells c).
Proof.
  intros Hc. split_and!.
  - apply NoDup_fmap_2_strong; [congruence|apply NoDup_seq].
  - done.
  - intros p [? ->]%elem_of_col_cells. done.
  - intros p q [_ ?]%elem_of_col_cells [_ ?]%elem_of_col_cells.
    right; left. congruence.
Qed.

Lemma region_cells_unit br bc : br < 3 → bc < 3 → is_unit (region_cells br bc).
Proof.
  intros Hbr Hbc. split_and!.
  - apply NoDup_bind; [| |apply NoDup_seq].
    + intros i1 i2 p _ _ (? & -> & _)%list_elem_of_fmap
        (? & [= -> _] & _)%list_elem_of_fmap. done.
    + intros i _. apply NoDup_fmap_2_strong; [congruence|apply NoDup_seq].
  - done.
  - intros [i j] [? ?]%elem_of_region_cells; cbn [fst snd] in *.
    div3 i. div3 j. lia.
  - intros p q [? ?]%elem_of_region_cells [? ?]%elem_of_region_cells.
    right; right. split; congruence.
Qed.

(** Nine distinct digits among 1..9 are the nine digits. *)
Lemma nine_digits (l : list Z) :
  NoDup l → length l = 9 → (∀ x, x ∈ l → (1 ≤ x ≤ 9)%Z) → valid_group l.
Proof.
  intros Hnd Hlen Hin. split; [done|]. intros x. split; [apply Hin|].
  intros Hx. assert (l ≡ₚ range 1 10) as ->.
  { apply submseteq_length_Permutation; [|by rewrite Hlen].
    apply NoDup_submseteq; [done|]. intros y Hy%Hin.
    apply elem_of_range. lia. }
  apply elem_of_range. lia.
Qed.

Lemma unit_valid (g : Grid) cells :
  is_unit cells →
  (∀ p, p ∈ cells →
        (1 ≤ get g p.1 p.2 ≤ 9)%Z ∧ no_conflict g (get g p.1 p.2) p.1 p.2) →
  valid_group (vals g cells).
Proof.
  intros (Hnd & Hlen & Hin & Hpeer) Hok. apply nine_digits.
  - apply NoDup_fmap_2_strong; [|done].
    intros [i j] [i' j'] Hp Hq Heq; cbn [fst snd] in Heq.
    destruct (decide ((i', j') = (i, j))) as [|Hne]; [done|]. exfalso.
    destruct (Hin _ Hq) as [Hi' Hj']. destruct (Hin _ Hp) as [Hi Hj].
    destruct (Hok _ Hp) as [_ Hnc]. cbn [fst snd] in *.
    rewrite no_conflict_peer in Hnc by done.
    apply (Hnc i' j' Hi' Hj' Hne); [by apply Hpeer|done].
  - unfold vals. by rewrite length_fmap.
  - intros x (p & -> & Hp)%list_elem_of_fmap. by destruct (Hok _ Hp).
Qed.

Lemma all_cells_ok_solved (g : Grid) : all_cells_ok g → solved_grid g.
Proof.
  intros Hok. split_and!.
  - intros r Hr. apply unit_valid; [by apply row_cells_unit|].
    intros p Hp. destruct (row_cells_unit r Hr) as (_ & _ & Hin & _).
    destruct (Hin p Hp). by apply Hok.
  - intros c Hc. apply unit_valid; [by apply col_cells_unit|].
    intros p Hp. destruct (col_cells_unit c Hc) as (_ & _ & Hin & _).
    destruct (Hin p Hp). by apply Hok.
  - intros br bc Hbr Hbc. apply unit_valid; [by apply region_cells_unit|].
    intros p Hp. destruct (region_cells_unit br bc Hbr Hbc) as (_ & _ & Hin & _).
    destruct (Hin p Hp). by apply Hok.
Qed.

Lemma NoDup_fmap_inj_on {A B} (f : A → B) (l : list A) x y :
  NoDup (f <$> l) → x ∈ l → y ∈ l → f x = f y → x = y.
Proof.
  induction l as [|a l IH]; [by intros _ ?%elem_of_nil|].
  rewrite fmap_cons, NoDup_cons. intros [Ha Hnd].
  intros [->|Hx]%elem_of_cons [->|Hy]%elem_of_cons Heq; [done| | |by apply IH].
  - exfalso. apply Ha. rewrite Heq. by apply list_elem_of_fmap_2.
  - exfalso. apply Ha. rewrite <- Heq. by apply list_elem_of_fmap_2.
Qed.

Lemma solved_all_cells_ok (g : Grid) : solved_grid g → all_cells_ok g.
Proof.
  intros (Hrows & Hcols & Hregs) i j Hi Hj. split.
  - destruct (Hrows i Hi) as [_ Hin]. apply Hin.
    apply (list_elem_of_fmap_2' _ _ (i, j)); [|done].
    by apply elem_of_row_cells.
  - apply no_conflict_peer; [done..|].
    intros i' j' Hi' Hj' Hne Hpeer Heq.
    assert (∃ cells, NoDup (vals g cells) ∧ (i, j) ∈ cells ∧ (i', j') ∈ cells)
      as (cells & Hnd & Hp & Hq).
    { destruct Hpeer as [Hrow|[Hcol|[Hr3 Hc3]]]; cbn [fst snd] in *.
      - exists (row_cells i). split; [by apply Hrows|].
        by rewrite !elem_of_row_cells.
      - exists (col_cells j). split; [by apply Hcols|].
        by rewrite !elem_of_col_cells.
      - exists (region_cells (i / 3) (j / 3)).
        split; [apply Hregs; div3 i; div3 j; lia|].
        by rewrite !elem_of_region_cells. }
    apply Hne. symmetry.
    by apply (NoDup_fmap_inj_on (fun p => get g p.1 p.2) cells (i, j) (i', j')).
Qed.

(** ** Sample grids *)

Lemma wf9_sample_grid : wf9 sample_grid.
Proof. split; [reflexivity|repeat constructor]. Qed.

Lemma valid_completion_completes (g t : Grid) :
  valid_completion g t → completes g t.
Proof.
  intros (Hwf & Hsolved%solved_all_cells_ok & Hkeep).
  split_and!; [done|done| |].
  - intros i j Hi Hj. destruct (Hsolved i j Hi Hj). lia.
  - intros i j Hi Hj _. by apply Hsolved.
Qed.

(** ** Deciding the conditions on a given grid *)

Lemma all_cellsb_spec f :
  all_cellsb f = true ↔ ∀ i j, i < 9 → j < 9 → f i j = true.
Proof.
  unfold all_cellsb. rewrite forallb_forall.
  setoid_rewrite forallb_forall. setoid_rewrite in_seq. split.
  - intros H i j Hi Hj. apply H; lia.
  - intros H i Hi j Hj. apply H; lia.
Qed.

Lemma wf9b_spec (g : Grid) : wf9b g = true → wf9 g.
Proof.
  unfold wf9b. intros [Hlen Hrows]%andb_true_iff. split.
  - by apply Nat.eqb_eq.
  - apply Forall_forall. intros row Hrow%list_elem_of_In.
    rewrite forallb_forall in Hrows. by apply Nat.eqb_eq, Hrows.
Qed.

Lemma cell_okb_spec (g : Grid) i j :
  wf9 g → i < 9 → j < 9 → cell_okb g i j = true →
  (1 ≤ get g i j ≤ 9)%Z ∧ no_conflict g (get g i j) i j.
Proof.
  intros Hwf Hi Hj. unfold cell_okb.
  intros [[H1 H9]%andb_true_iff Hcheck]%andb_true_iff. split; [lia|].
  apply check_true_iff; [done..|].
  by destruct (check _ _ _) as [[|]| |].
Qed.

Lemma all_cells_okb_spec (g : Grid) :
  wf9 g → all_cells_okb g = true → all_cells_ok g.
Proof.
  intros Hwf Hok i j Hi Hj. apply cell_okb_spec; [done..|].
  by apply all_cellsb_spec.
Qed.

Lemma valid_completionb_spec (g t : Grid) :
  valid_completionb g t = true → valid_completion g t.
Proof.
  unfold valid_completionb.
  intros [[Hwf%wf9b_spec Hok]%andb_true_iff Hext]%andb_true_iff.
  split_and!; [done| |].
  - by apply all_cells_ok_solved, all_cells_okb_spec.
  - intros i j Hi Hj Hnz.
    pose proof (proj1 (all_cellsb_spec _) Hext i j Hi Hj) as H. cbn beta in H.
    apply orb_true_iff in H as [H|H]; lia.
Qed.

Lemma solve_same_outcome clock1 clock2 fuel1 fuel2 w1 w2 said1 said2
    (g1 g2 : Grid) w1' w2' :
  grid (self w1) = grid (self w2) →
  solve clock1 fuel1 w1 = Ret ((said1, g1), w1') →
  solve clock2 fuel2 w2 = Ret ((said2, g2), w2') →
  verdict said1 = verdict said2 ∧ g1 = g2.
Proof.
  intros Hg. rewrite !solve_eq.
  destruct (recursive_solve clock1 _ _) as [[b1 u1]| |] eqn:Hcall1; [|done..].
  destruct (recursive_solve clock2 _ _) as [[b2 u2]| |] eqn:Hcall2;
    [|by destruct b1..].
  destruct (recursive_solve_same_outcome clock1 clock2 fuel1 fuel2
              (started clock1 w1) (started clock2 w2) _ _ _ _
              Hg Hcall1 Hcall2) as [<- Hu].
  destruct b1; intros [= <- <- <-] [= <- <- <-]; done.
Qed.

Lemma givens_consistentb_spec (g : Grid) :
  wf9 g → givens_consistentb g = true → givens_consistent g.
Proof.
  intros Hwf Hok i j Hi Hj Hnz.
  pose proof (proj1 (all_cellsb_spec _) Hok i j Hi Hj) as H. cbn beta in H.
  apply orb_true_iff in H as [H|H]; [lia|]. by apply cell_okb_spec.
Qed.

Lemma completes_consistent (g g' : Grid) :
  givens_consistent g → completes g g' → all_cells_ok g'.
Proof.
  intros Hgiven (Hwf' & Hkeep & Hfull & Hplaced) i j Hi Hj.
  destruct (decide (get g i j = 0%Z)) as [Hz|Hnz]; [by apply Hplaced|].
  destruct (Hgiven i j Hi Hj Hnz) as [Hd Hnc].
  rewrite Hkeep by done. split; [done|].
  rewrite no_conflict_peer in Hnc |- * by done.
  intros i' j' Hi' Hj' Hne Hpeer.
  destruct (decide (get g i' j' = 0%Z)) as [Hz'|Hnz'].
  - destruct (Hplaced i' j' Hi' Hj' Hz') as [_ Hnc'].
    rewrite no_conflict_peer in Hnc' by done.
    specialize (Hnc' i j Hi Hj). rewrite Hkeep in Hnc' by done.
    intros Heq. apply Hnc'; [congruence|by apply peer_sym|done].
  - rewrite Hkeep by done. by apply Hnc.
Qed.

(** ** A duplicate in a row above or below empty rows *)

Lemma choose_list {A B} (P : A → B → Prop) (l : list A) :
  (∀ x, x ∈ l → ∃ y, P x y) → ∃ k, Forall2 P l k.
Proof.
  induction l as [|x l IH]; intros Hex; [by exists []|].
  destruct (Hex x) as [y Hy]; [left|].
  destruct IH as [k Hk]; [intros x' ?; apply Hex; by right|].
  exists (y :: k). by constructor.
Qed.

Lemma Forall2_elem_of_r {A B} (P : A → B → Prop) l k y :
  Forall2 P l k → y ∈ k → ∃ x, x ∈ l ∧ P x y.
Proof.
  induction 1 as [|x y' l k Hxy _ IH]; [by intros ?%elem_of_nil|].
  intros [->|Hy]%elem_of_cons.
  - exists x. split; [left|done].
  - destruct (IH Hy) as (x' & ? & ?). exists x'. split; [by right|done].
Qed.

Lemma Forall2_NoDup {A B} (P : A → B → Prop) l k :
  Forall2 P l k → NoDup l →
  (∀ x1 x2 y, P x1 y → P x2 y → x1 = x2) → NoDup k.
Proof.
  intros HP Hnd Hinj. induction HP as [|x y l k Hxy HP IH]; [constructor|].
  apply NoDup_cons in Hnd as [Hx Hnd]. constructor; [|by apply IH].
  intros (x' & Hx' & Hx'y)%(Forall2_elem_of_r P l k y HP).
  by rewrite (Hinj x x' y Hxy Hx'y) in Hx.
Qed.

(** Two cells of row [r] hold the digit [d] and every other row is
    empty: the eight other rows each need a [d], in eight different
    columns, none of them one of the two columns taken in row [r]. *)
Lemma row_duplicate_no_completion (g g' : Grid) r c1 c2 d :
  r < 9 → c1 < 9 → c2 < 9 → c1 ≠ c2 → (1 ≤ d ≤ 9)%Z →
  get g r c1 = d → get g r c2 = d →
  (∀ i j, i < 9 → j < 9 → i ≠ r → get g i j = 0%Z) →
  ¬ completes g g'.
Proof.
  intros Hr Hc1 Hc2 Hne Hd Hg1 Hg2 Hempty (Hwf' & Hkeep & Hfull & Hplaced).
  assert (get g' r c1 = d) as H1 by (rewrite Hkeep; [done..|lia]).
  assert (get g' r c2 = d) as H2 by (rewrite Hkeep; [done..|lia]).
  set (P := fun i j => i < 9 ∧ j < 9 ∧ get g' i j = d ∧
                       (i = r → j = c1) ∧ (i ≠ r → j ≠ c1 ∧ j ≠ c2)).
  assert (∀ i j, i < 9 → j < 9 → i ≠ r → get g' i j = d →
                 ∀ i', i' < 9 → i' ≠ i → get g' i' j ≠ d) as Hcolumn.
  { intros i j Hi Hj Hir Hij i' Hi' Hne'.
    destruct (Hplaced i j Hi Hj (Hempty i j Hi Hj Hir)) as [_ (_ & Hcol & _)].
    rewrite Hij in Hcol. by apply Hcol. }
  assert (∀ i, i ∈ seq 0 9 → ∃ j, P i j) as Hex.
  { intros i Hi%elem_of_seq. destruct (decide (i = r)) as [->|Hir].
    { exists c1. unfold P. split_and!; done || lia. }
    assert (valid_group (vals g' (row_cells i))) as [_ Hall].
    { apply unit_valid; [apply row_cells_unit; lia|].
      intros [i' j] [? ?]%elem_of_row_cells; cbn [fst snd] in *; subst i'.
      apply Hplaced; [lia|done|]. apply Hempty; [lia|done..]. }
    pose proof (proj2 (Hall d) Hd) as Hin.
    apply list_elem_of_fmap in Hin as ([i' j] & Hv & [? Hj]%elem_of_row_cells).
    cbn [fst snd] in *; subst i'. exists j. unfold P.
    split_and!; [lia|done|done|done|].
    intros _. split; intros ->.
    - apply (Hcolumn i c1 ltac:(lia) Hc1 Hir (eq_sym Hv) r Hr); [congruence|done].
    - apply (Hcolumn i c2 ltac:(lia) Hc2 Hir (eq_sym Hv) r Hr); [congruence|done]. }
  destruct (choose_list P (seq 0 9) Hex) as [k Hk].
  assert (NoDup (c2 :: k)) as Hnd.
  { constructor.
    - intros (i & _ & (_ & _ & _ & Hat & Hoff))%(Forall2_elem_of_r P _ _ _ Hk).
      destruct (decide (i = r)) as [Hir|Hir];
        [by apply Hne; symmetry; apply Hat|by apply Hoff].
    - apply (Forall2_NoDup P _ _ Hk (NoDup_seq 0 9)).
      intros i1 i2 j (Hi1 & Hj & Hv1 & Hat1 & Hoff1) (Hi2 & _ & Hv2 & Hat2 & Hoff2).
      destruct (decide (i1 = i2)) as [|Hi12]; [done|]. exfalso.
      destruct (decide (i1 = r)) as [E1|E1].
      + destruct (Hoff2 ltac:(congruence)) as [Hj1 _]. by apply Hj1, Hat1.
      + by apply (Hcolumn i1 j Hi1 Hj E1 Hv1 i2 Hi2 ltac:(congruence)). }
  assert (c2 :: k ⊆+ seq 0 9) as Hsub.
  { apply NoDup_submseteq; [done|].
    intros j [->|Hj]%elem_of_cons; apply elem_of_seq; [lia|].
    destruct (Forall2_elem_of_r P _ _ _ Hk Hj) as (i & _ & _ & ? & _). lia. }
  apply submseteq_length in Hsub. apply Forall2_length in Hk.
  rewrite length_seq in Hk. rewrite length_cons, length_seq in Hsub. lia.
Qed.

(** ** Loading *)

Lemma str_eqb_eq (x y : ustr) : str_eqb x y = true ↔ x = y.
Proof.
  revert y. induction x as [|a x IH]; intros [|b y]; cbn [str_eqb]; try done.
  rewrite andb_true_iff, N.eqb_eq, IH. split; [by intros [-> ->]|by intros [= -> ->]].
Qed.

Lemma str_eqb_refl (x : ustr) : str_eqb x x = true.
Proof. by apply str_eqb_eq. Qed.

Lemma str_eqb_neq (x y : ustr) : str_eqb x y = false ↔ x ≠ y.
Proof. rewrite <- not_true_iff_false, str_eqb_eq. done. Qed.

Section LoadingFacts.

Variable h : Host.

Lemma malformed_cond (s : ustr) :
  negb (length s =? 9) || negb (isdigit h s) = true ↔ malformed h s.
Proof.
  unfold malformed. rewrite orb_true_iff, !negb_true_iff, Nat.eqb_neq. done.
Qed.

Lemma malformed_dec (s : ustr) : Decision (malformed h s).
Proof. unfold malformed. apply _. Qed.

Lemma decimal9_not_malformed (s : ustr) : decimal9 h s → ¬ malformed h s.
Proof. by intros [? _]. Qed.

Lemma comprehension_int (cs : ustr) :
  Forall (fun c => is_Some (decimal h c)) cs →
  comprehension (int h) cs = Ret (digits h cs).
Proof.
  induction 1 as [|c cs [v Hc] _ IH]; [done|].
  cbn [comprehension]. unfold int at 1. rewrite Hc. cbn [bind].
  rewrite IH. cbn [bind]. unfold digits. cbn. by rewrite Hc.
Qed.

Lemma comprehension_int_inv (cs : ustr) l :
  comprehension (int h) cs = Ret l → Forall (fun c => is_Some (decimal h c)) cs.
Proof.
  revert l. induction cs as [|c cs IH]; intros l; [constructor|].
  cbn [comprehension]. unfold int at 1.
  destruct (decimal h c) as [v|] eqn:Hc; [|done]. cbn [bind].
  destruct (comprehension (int h) cs) as [l'| |] eqn:Hcs; [|done..].
  intros _. constructor; [by exists v|by apply (IH l')].
Qed.

(** The comprehension stops at the first character in which [int]
    reads no value. *)
Lemma comprehension_int_find (cs : ustr) :
  comprehension (int h) cs =
  match first_nondecimal h cs with
  | Some c => Raise (ValueError (InvalidLiteral [c]))
  | None => Ret (digits h cs)
  end.
Proof.
  unfold first_nondecimal.
  induction cs as [|c cs IH]; [done|].
  cbn [comprehension List.find]. unfold int at 1. unfold digits. cbn [fmap list_fmap].
  destruct (decimal h c) as [v|] eqn:Hc; cbn [bind]; [|done].
  rewrite IH. by destruct (List.find _ cs).
Qed.

Lemma index_first (pre post : list ustr) (s : ustr) :
  Forall (fun y => y ≠ s) pre → index (pre ++ s :: post) s = Ret (length pre).
Proof.
  induction 1 as [|y pre Hy _ IH]; cbn [index app length].
  - by rewrite str_eqb_refl.
  - apply str_eqb_neq in Hy. by rewrite Hy, IH.
Qed.

Lemma load_rows_step (data rest : list ustr) (i : ustr) (grid : Grid) :
  load_rows h data (i :: rest) grid =
  if negb (length i =? 9) || negb (isdigit h i) then
    let* k := index data i in Raise (ValueError (InvalidGridRow k i))
  else
    let* numbers := comprehension (int h) i in
    load_rows h data rest (grid ++ [numbers]).
Proof. done. Qed.

(** Rows of nine decimal digits are appended to the grid, one by one. *)
Lemma load_rows_ok (data rest : list ustr) : ∀ grid : Grid,
  Forall (decimal9 h) rest →
  load_rows h data rest grid = Ret (grid ++ (digits h <$> rest)).
Proof.
  induction rest as [|i rest IH]; intros grid Hrest.
  { by rewrite app_nil_r. }
  apply Forall_cons in Hrest as [Hi Hrest]. rewrite load_rows_step.
  destruct (negb _ || negb _) eqn:Hcond.
  { apply malformed_cond in Hcond. by apply decimal9_not_malformed in Hi. }
  rewrite comprehension_int by apply Hi. cbn [bind].
  rewrite IH by done. by rewrite <- app_assoc.
Qed.

(** The first malformed row, after rows of nine decimal digits, is named
    by its index and content. *)
Lemma load_rows_invalid (pre good post : list ustr) (s : ustr) (grid : Grid) :
  Forall (fun y => ¬ malformed h y) pre → Forall (decimal9 h) good → malformed h s →
  load_rows h (pre ++ good ++ s :: post) (good ++ s :: post) grid =
  Raise (ValueError (InvalidGridRow (length pre + length good) s)).
Proof.
  intros Hpre Hgood Hs. revert pre grid Hpre.
  induction Hgood as [|i good Hi _ IH]; intros pre grid Hpre.
  - cbn [app]. rewrite load_rows_step.
    rewrite (proj2 (malformed_cond s) Hs).
    rewrite index_first; [cbn; by rewrite Nat.add_0_r|].
    eapply Forall_impl; [done|]. cbn. intros y Hy ->. done.
  - cbn [app]. rewrite load_rows_step.
    destruct (negb _ || negb _) eqn:Hcond.
    { apply malformed_cond in Hcond. by apply decimal9_not_malformed in Hi. }
    rewrite comprehension_int by apply Hi. cbn [bind].
    replace (pre ++ i :: good ++ s :: post)
      with ((pre ++ [i]) ++ good ++ s :: post) by (by rewrite <- app_assoc).
    rewrite IH.
    + rewrite length_app. cbn. do 3 f_equal. lia.
    + apply Forall_app. split; [done|].
      constructor; [by apply decimal9_not_malformed|constructor].
Qed.

Lemma decimal9_dec (s : ustr) : Decision (decimal9 h s).
Proof.
  unfold decimal9. pose proof malformed_dec. apply _.
Qed.

(** The rows split at the first that is not nine decimal digits. *)
Lemma split_first_bad (rows : list ustr) :
  Forall (decimal9 h) rows ∨
  ∃ good s post,
    rows = good ++ s :: post ∧ Forall (decimal9 h) good ∧ ¬ decimal9 h s.
Proof.
  induction rows as [|s rows IH]; [left; constructor|].
  destruct (decimal9_dec s) as [Hs|Hs].
  - destruct IH as [Hall|(good & s' & post & -> & Hgood & Hs')].
    + left. by constructor.
    + right. exists (s :: good), s', post. split_and!; [done|by constructor|done].
  - right. exists [], s, rows. split_and!; [done|constructor|done].
Qed.

Lemma first_nondecimal_None (s : ustr) :
  first_nondecimal h s = None ↔ Forall (fun c => is_Some (decimal h c)) s.
Proof.
  unfold first_nondecimal. induction s as [|c s IH]; cbn [List.find].
  - split; [constructor|done].
  - destruct (decimal h c) as [v|] eqn:Hc.
    + rewrite IH. split; [intros ?; constructor; [by exists v|done]|].
      by intros [_ ?]%Forall_cons.
    + split; [done|]. intros [[v Hv] _]%Forall_cons. congruence.
Qed.

Lemma first_nondecimal_Some (s : ustr) c :
  first_nondecimal h s = Some c → c ∈ s ∧ decimal h c = None.
Proof.
  unfold first_nondecimal. intros [Hin Hc]%find_some. split.
  - by apply list_elem_of_In.
  - by destruct (decimal h c).
Qed.

(** A row that passes the check of [load_grid] and is not nine decimal
    digits is refused by [int], at its first character without a
    value. *)
Lemma load_rows_literal (data good post : list ustr) (s : ustr) c :
  Forall (decimal9 h) good → ¬ malformed h s → first_nondecimal h s = Some c →
  ∀ grid : Grid,
    load_rows h data (good ++ s :: post) grid =
    Raise (ValueError (InvalidLiteral [c])).
Proof.
  intros Hgood Hs Hc. induction Hgood as [|i good Hi _ IH]; intros grid.
  - cbn [app]. rewrite load_rows_step.
    destruct (negb _ || negb _) eqn:Hcond; [by apply malformed_cond in Hcond|].
    rewrite comprehension_int_find. by rewrite Hc.
  - cbn [app]. rewrite load_rows_step.
    destruct (negb _ || negb _) eqn:Hcond.
    { apply malformed_cond in Hcond. by apply decimal9_not_malformed in Hi. }
    rewrite comprehension_int by apply Hi. cbn [bind]. apply IH.
Qed.

(** The three outcomes of the loop of [load_grid] on the rows [data]. *)
Lemma load_rows_cases (data : list ustr) :
  (Forall (decimal9 h) data ∧ load_rows h data data [] = Ret (digits h <$> data)) ∨
  (∃ good s post,
     data = good ++ s :: post ∧ Forall (decimal9 h) good ∧ malformed h s ∧
     load_rows h data data [] = Raise (ValueError (InvalidGridRow (length good) s))) ∨
  (∃ good s post c,
     data = good ++ s :: post ∧ Forall (decimal9 h) good ∧ ¬ malformed h s ∧
     first_nondecimal h s = Some c ∧
     load_rows h data data [] = Raise (ValueError (InvalidLiteral [c]))).
Proof.
  destruct (split_first_bad data)
    as [Hall|(good & s & post & Hsplit & Hgood & Hs)].
  - left. split; [done|]. by rewrite load_rows_ok.
  - right. destruct (malformed_dec s) as [Hm|Hm].
    + left. exists good, s, post. split_and!; [done..|]. rewrite Hsplit.
      pose proof (load_rows_invalid [] good post s [] ltac:(constructor)
                    Hgood Hm) as Hrun.
      cbn [app length] in Hrun. by rewrite Hrun.
    + right. destruct (first_nondecimal h s) as [c|] eqn:Hc.
      * exists good, s, post, c. split_and!; [done..|].
        rewrite Hsplit at 2. by apply load_rows_literal.
      * exfalso. apply Hs. split; [done|]. by apply first_nondecimal_None.
Qed.

(** [load_grid] on a file that reads as the lines [f]. *)
Lemma load_grid_read (path : ustr) (f : list ustr) :
  read_lines h path = inr f →
  load_grid h path = load_rows h (nonblank h f) (nonblank h f) [].
Proof. unfold load_grid. by intros ->. Qed.

Lemma load_grid_unread (path : ustr) (e : external) :
  read_lines h path = inl e → load_grid h path = Raise (External e).
Proof. unfold load_grid. by intros ->. Qed.

End LoadingFacts.

(** ** The clock fields *)

Lemma time_taken_zero (s : Sudoku) : time s = 0%float → time_taken s = 0%float.
Proof. unfold time_taken. intros ->. reflexivity. Qed.

(** A successful search reads the clock once, in the base case, and
    stores the time elapsed since [self.start]. *)
Lemma recursive_solve_stamps clock fuel : ∀ w w',
  recursive_solve clock fuel w = Ret (true, w') →
  w' = stamp clock (with_grid w (grid (self w'))).
Proof.
  induction fuel as [|fuel IH]; intros w w'; [done|].
  rewrite recursive_solve_S.
  destruct (find_empty_cell _) as [[[row col]|]| |] eqn:Hfind; try done.
  - apply find_empty_cell_Some in Hfind as (_ & _ & H0 & _).
    intros (i & _ & _ & Hcall)%solve_loop_true;
      [|apply recursive_solve_restores|done].
    by apply IH in Hcall.
  - intros [= <-]. by destruct w as [[] ?].
Qed.

Lemma solve_unsolvable_time clock fuel w (g' : Grid) w' :
  solve clock fuel w = Ret ((GridIsUnsolvable, g'), w') →
  time (self w') = time (self w).
Proof.
  intros Hsolve.
  destruct (unsolvable_by_inv clock fuel w g') as (w'' & Hcall & _); [by exists w'|].
  rewrite solve_eq, Hcall in Hsolve. injection Hsolve as _ <-.
  by apply recursive_solve_restores in Hcall as ->.
Qed.

Lemma init_time (h : Host) (path : ustr) (s : Sudoku) :
  __init__ h path = Ret s → time s = 0%float.
Proof.
  unfold __init__. destruct (load_grid h path); [|done..]. by intros [= <-].
Qed.

Section Batch.

Variables (h : Host) (clock : nat → float) (fuel : nat).

Lemma test_loop_cons f files times now :
  test_loop h clock fuel (f :: files) times now =
  match __init__ h (codes "sudokus_test/" ++ f) with
  | Ret solver =>
      match solve clock fuel (mkWorld solver now) with
      | Ret (_, w) =>
          test_loop h clock fuel files (times ++ [time_taken (self w)]) (ticks w)
      | Raise e => Raise e
      | OutOfFuel => OutOfFuel
      end
  | Raise e => Raise e
  | OutOfFuel => OutOfFuel
  end.
Proof.
  cbn [test_loop]. destruct (__init__ h _) as [solver| |]; [|done..]. cbn [bind].
  by destruct (solve _ _ _) as [[[said g] w]| |].
Qed.

Lemma test_loop_app files : ∀ times0 now times now',
  test_loop h clock fuel files times0 now = Ret (times, now') →
  ∃ rest, times = times0 ++ rest ∧ length rest = length files.
Proof.
  induction files as [|f files IH]; intros times0 now times now'.
  { intros [= <- <-]. exists []. by rewrite app_nil_r. }
  rewrite test_loop_cons.
  destruct (__init__ h _) as [solver| |]; [|done..].
  destruct (solve _ _ _) as [[[said g] w]| |]; [|done..].
  intros (rest & -> & Hlen)%IH. exists (time_taken (self w) :: rest).
  split; [by rewrite <- app_assoc|]. cbn. lia.
Qed.

(** The entry of [times] for an unsolvable puzzle is zero. *)
Lemma test_loop_zero files : ∀ times0 now times now' n f s,
  test_loop h clock fuel files times0 now = Ret (times, now') →
  files !! n = Some f → __init__ h (codes "sudokus_test/" ++ f) = Ret s →
  (∃ k (g' : Grid) w',
     solve clock fuel (mkWorld s k) = Ret ((GridIsUnsolvable, g'), w')) →
  times !! (length times0 + n) = Some 0%float.
Proof.
  induction files as [|f0 files IH]; intros times0 now times now' n f s; [done|].
  rewrite test_loop_cons. intros Hloop Hn Hinit Hbad.
  destruct (__init__ h (_ ++ f0)) as [solver| |] eqn:Hinit0; [|done..].
  destruct (solve _ _ _) as [[[said g] w]| |] eqn:Hsolve; [|done..].
  destruct n as [|n]; cbn in Hn.
  - injection Hn as ->. rewrite Hinit in Hinit0. injection Hinit0 as <-.
    destruct Hbad as (k & g' & w' & Hbad).
    destruct (solve_same_outcome clock clock fuel fuel (mkWorld s now)
                (mkWorld s k) _ _ _ _ _ _ eq_refl Hsolve Hbad) as [Hsaid _].
    destruct said; [|done].
    apply test_loop_app in Hloop as (rest & -> & _).
    rewrite <- app_assoc, Nat.add_0_r.
    rewrite <- (time_taken_zero (self w)).
    + by apply list_lookup_middle.
    + rewrite (solve_unsolvable_time _ _ _ _ _ Hsolve).
      by apply (init_time h (codes "sudokus_test/" ++ f)).
  - rewrite <- (IH _ _ _ _ n f s Hloop Hn Hinit Hbad).
    rewrite length_app. cbn. f_equal. lia.
Qed.

End Batch.

(** * The claims *)

(** C1, as the code has it.  Whenever [solve] reports success on a 9x9
    input grid whose given cells hold digits 1..9 that do not conflict
    with each other, every row, every column and every 3x3 region of the
    resulting grid holds exactly the set {1..9}, with no repeats.  (The
    given cells are never checked against each other.) *)
Theorem solve_valid (clock : nat → float) (fuel : nat) (w : World) (g' : Grid) :
  wf9 (grid (self w)) → givens_consistent (grid (self w)) →
  solved_by clock fuel w g' → solved_grid g'.
Proof.
  intros Hwf Hgiven (w' & Hcall & ->)%solved_by_inv.
  apply all_cells_ok_solved, (completes_consistent (grid (self w))); [done|].
  by apply (recursive_solve_sound clock fuel (started clock w)).
Qed.

Lemma solve_valid_witness : solved_grid sample_solution.
Proof.
  apply (solve_valid still 82 (fresh sample_grid) sample_solution).
  - split; [reflexivity|repeat constructor].
  - apply givens_consistentb_spec; [apply wf9_sample_grid|].
    vm_compute. reflexivity.
  - eexists _, _. vm_compute. reflexivity.
Defined.

(** C1, as stated, fails on a full grid of ones: [solve] reports success
    at once, and no row of the grid is valid. *)
Lemma solve_valid_counterexample :
  wf9 ones_grid ∧
  solved_by still 82 (fresh ones_grid) ones_grid ∧
  ¬ solved_grid ones_grid.
Proof.
  split_and!.
  - split; [reflexivity|repeat constructor].
  - eexists _, _. vm_compute. reflexivity.
  - intros (Hrows & _). destruct (Hrows 0) as [Hnd _]; [lia|].
    vm_compute in Hnd. apply NoDup_cons in Hnd as [Hnotin _].
    apply Hnotin. left.
Qed.

(** C2. On every 9x9 grid, for every digit [d] and every position
    [(r, c)] with [r, c < 9], [check d (r, c)] returns, and it returns
    true if and only if no cell of row [r] other than [(r, c)], no cell
    of column [c] other than [(r, c)] and no cell of the 3x3 region with
    origin [(3 * (r / 3), 3 * (c / 3))] other than [(r, c)] holds [d].
    (The cell values and the digit need not be in range for this.) *)
Theorem check_correct (g : Grid) (d : Z) (r c : nat) :
  wf9 g → r < 9 → c < 9 →
  (∃ b, check g d (r, c) = Ret b) ∧
  (check g d (r, c) = Ret true ↔ no_conflict g d r c).
Proof.
  intros Hwf Hr Hc. split.
  - destruct (check_spec g d r c Hwf Hr Hc) as (b & Hb & _). eauto.
  - by apply check_true_iff.
Qed.

Lemma check_correct_witness :
  (∃ b, check sample_grid 9 (8, 8) = Ret b) ∧
  (check sample_grid 9 (8, 8) = Ret true ↔ no_conflict sample_grid 9 8 8).
Proof.
  apply (check_correct sample_grid 9 8 8).
  - split; [reflexivity|repeat constructor].
  - lia.
  - lia.
Defined.

(** C3. For every 9x9 input grid that has at least one completion
    satisfying all row, column and region constraints and keeping the
    given non-zero cells, [solve] reports success, as soon as the call
    stack may be 82 calls deep. *)
Theorem solve_complete (clock : nat → float) (fuel : nat) (w : World) (t : Grid) :
  wf9 (grid (self w)) → valid_completion (grid (self w)) t → 81 < fuel →
  ∃ g', solved_by clock fuel w g'.
Proof.
  intros Hwf Ht%valid_completion_completes Hfuel.
  destruct (recursive_solve_total clock fuel (started clock w)) as (b & w' & Hcall).
  { done. }
  { pose proof (count_empty_bound _ Hwf).
    change (grid (self (started clock w))) with (grid (self w)). lia. }
  destruct b.
  - exists (grid (self w')), (time_taken (self w')), w'.
    by rewrite solve_eq, Hcall.
  - by apply (recursive_solve_exhaustive _ _ _ _ t) in Hcall.
Qed.

Lemma solve_complete_witness : ∃ g', solved_by still 82 (fresh sample_grid) g'.
Proof.
  apply (solve_complete still 82 (fresh sample_grid) sample_solution).
  - split; [reflexivity|repeat constructor].
  - apply valid_completionb_spec. vm_compute. reflexivity.
  - lia.
Defined.

(** C4, as the code has it.  On a 9x9 grid, [solve] reports failure,
    and returns the grid as it was, exactly when the empty cells have no
    conflict-free filling: no way to write a digit of 1..9 into every
    empty cell so that none of the digits written conflicts with a cell
    of its row, column or region.  It reports success exactly when they
    have one.  The given cells are never compared with each other: a
    contradiction among them makes [solve] fail only when it leaves the
    empty cells without a conflict-free filling.  That is so on every
    grid in which two cells of one row hold the same digit of 1..9 and
    every other row is empty, in particular on the grid whose row 0 is
    119000000 and whose other cells are zero. *)
Theorem solve_fails_iff_no_filling (clock : nat → float) (fuel : nat) (w : World) :
  wf9 (grid (self w)) → 81 < fuel →
  (unsolvable_by clock fuel w (grid (self w)) ↔
     ¬ ∃ t, completes (grid (self w)) t) ∧
  ((∃ g', solved_by clock fuel w g') ↔ ∃ t, completes (grid (self w)) t) ∧
  (∀ r c1 c2 d,
     r < 9 → c1 < 9 → c2 < 9 → c1 ≠ c2 → (1 ≤ d ≤ 9)%Z →
     get (grid (self w)) r c1 = d → get (grid (self w)) r c2 = d →
     (∀ i j, i < 9 → j < 9 → i ≠ r → get (grid (self w)) i j = 0%Z) →
     unsolvable_by clock fuel w (grid (self w))).
Proof.
  intros Hwf Hfuel.
  destruct (recursive_solve_total clock fuel (started clock w)) as (b & w' & Hcall).
  { done. }
  { pose proof (count_empty_bound _ Hwf).
    change (grid (self (started clock w))) with (grid (self w)). lia. }
  assert (b = false → unsolvable_by clock fuel w (grid (self w))) as Hfails.
  { intros ->. exists w'. rewrite solve_eq, Hcall.
    by apply recursive_solve_restores in Hcall as ->. }
  assert (b = false → ¬ ∃ t, completes (grid (self w)) t) as Hnone.
  { intros -> [t Ht].
    by apply (recursive_solve_exhaustive _ _ _ _ t) in Hcall. }
  assert (b = true → completes (grid (self w)) (grid (self w'))) as Hsome.
  { intros ->. by apply recursive_solve_sound in Hcall. }
  split_and!.
  - split.
    + intros (w'' & Hcall' & _)%unsolvable_by_inv.
      rewrite Hcall in Hcall'. injection Hcall' as -> _. by apply Hnone.
    + intros Hno. destruct b; [|by apply Hfails].
      destruct Hno. eexists. by apply Hsome.
  - split.
    + intros [g' (w'' & Hcall' & _)%solved_by_inv].
      rewrite Hcall in Hcall'. injection Hcall' as -> _. eexists. by apply Hsome.
    + intros Hsol. destruct b; [|by destruct (Hnone eq_refl)].
      exists (grid (self w')), (time_taken (self w')), w'.
      by rewrite solve_eq, Hcall.
  - intros r c1 c2 d Hr Hc1 Hc2 Hne Hd Hg1 Hg2 Hempty.
    destruct b; [|by apply Hfails].
    by apply (row_duplicate_no_completion _ _ r c1 c2 d) in Hsome.
Qed.

Lemma solve_fails_iff_no_filling_witness :
  (¬ ∃ t, completes stuck_grid t) ∧
  unsolvable_by still 82 (fresh row119_grid) row119_grid.
Proof.
  split.
  - apply (proj1 (proj1 (solve_fails_iff_no_filling still 82 (fresh stuck_grid)
                           ltac:(split; [reflexivity|repeat constructor])
                           ltac:(lia)))).
    eexists. vm_compute. reflexivity.
  - apply (proj2 (proj2 (solve_fails_iff_no_filling still 82 (fresh row119_grid)
                           ltac:(split; [reflexivity|repeat constructor])
                           ltac:(lia))) 0 0 1 1%Z).
    + lia.
    + lia.
    + lia.
    + lia.
    + lia.
    + reflexivity.
    + reflexivity.
    + intros i j Hi Hj Hne.
      assert (all_cellsb (fun i j => (i =? 0) || (get row119_grid i j =? 0)%Z) = true)
        as Hall by (vm_compute; reflexivity).
      pose proof (proj1 (all_cellsb_spec _) Hall i j Hi Hj) as H. cbn beta in H.
      apply orb_true_iff in H as [H|H]; [apply Nat.eqb_eq in H; lia|].
      apply Z.eqb_eq in H. exact H.
Defined.

(** C4, as stated, fails on [clash_grid]: row 0 begins with two 5s, and
    [solve] fills the one empty cell and reports success. *)
Lemma solve_rejects_row_duplicate_counterexample :
  wf9 clash_grid ∧
  get clash_grid 0 0 = 5%Z ∧ get clash_grid 0 1 = 5%Z ∧
  solved_by still 82 (fresh clash_grid) (put clash_grid 8 8 9).
Proof.
  split_and!.
  - split; [reflexivity|repeat constructor].
  - reflexivity.
  - reflexivity.
  - eexists _, _. vm_compute. reflexivity.
Qed.

(** C5. If [recursive_solve] returns false, the object is as it was at
    the moment of the call, grid included: every tentative placement has
    been retracted.  Hence the grid [solve] returns with the report
    'Grid is unsolvable' is the input grid. *)
Theorem failure_restores_grid (clock : nat → float) (fuel : nat) (w : World) :
  (∀ w', recursive_solve clock fuel w = Ret (false, w') → w' = w) ∧
  (∀ g', unsolvable_by clock fuel w g' → g' = grid (self w)).
Proof.
  split.
  - intros w'. apply recursive_solve_restores.
  - intros g' (w' & Hcall & ->)%unsolvable_by_inv.
    by apply recursive_solve_restores in Hcall as ->.
Qed.

(** On [backtrack_grid] the search writes 1 into (8, 6), then 7 into
    (8, 7), finds no digit for (8, 8) and takes both back. *)
Lemma failure_restores_grid_witness :
  find_empty_cell backtrack_grid = Ret (Some (8, 6)) ∧
  check backtrack_grid 1 (8, 6) = Ret true ∧
  check (put backtrack_grid 8 6 1) 7 (8, 7) = Ret true ∧
  match recursive_solve still 81 (fresh (put backtrack_grid 8 6 1)) with
  | Ret (false, w') => w' = fresh (put backtrack_grid 8 6 1)
  | _ => False
  end ∧
  match recursive_solve still 82 (fresh backtrack_grid) with
  | Ret (false, w') => w' = fresh backtrack_grid
  | _ => False
  end ∧
  match solve still 82 (fresh backtrack_grid) with
  | Ret ((GridIsUnsolvable, g'), _) => g' = backtrack_grid
  | _ => False
  end.
Proof.
  split_and!.
  - reflexivity.
  - reflexivity.
  - reflexivity.
  - apply (proj1 (failure_restores_grid still 81
                    (fresh (put backtrack_grid 8 6 1)))).
    vm_compute. reflexivity.
  - apply (proj1 (failure_restores_grid still 82 (fresh backtrack_grid))).
    vm_compute. reflexivity.
  - apply (proj2 (failure_restores_grid still 82 (fresh backtrack_grid))).
    eexists. vm_compute. reflexivity.
Defined.

(** C6. For every input grid, of whatever shape, and whatever the
    outcome [solve] reports: a cell whose initial value is non-zero holds
    that value in the grid [solve] returns.  (The only cell a call writes
    is the one [find_empty_cell] selected, which held 0.) *)
Theorem givens_are_kept (clock : nat → float) (fuel : nat) (w w' : World)
    (said : report) (g' : Grid) (i j : nat) (v : Z) :
  solve clock fuel w = Ret ((said, g'), w') →
  peek (grid (self w)) i j = Some v → v ≠ 0%Z →
  peek g' i j = Some v.
Proof.
  rewrite solve_eq.
  destruct (recursive_solve _ _ _) as [[b w'']| |] eqn:Hcall; [|done..].
  intros Hret Hv Hnz.
  assert (g' = grid (self w'')) as -> by (destruct b; congruence).
  by eapply recursive_solve_keeps.
Qed.

Lemma givens_are_kept_witness :
  peek sample_solution 0 0 = Some 5%Z ∧ peek stuck_grid 3 2 = Some 9%Z.
Proof.
  split.
  - eapply (givens_are_kept still 82 (fresh sample_grid) _ _ _ 0 0 5).
    + vm_compute. reflexivity.
    + reflexivity.
    + lia.
  - eapply (givens_are_kept still 82 (fresh stuck_grid) _ _ _ 3 2 9).
    + vm_compute. reflexivity.
    + reflexivity.
    + lia.
Defined.




(** C8. Solving the same input grid again yields the same verdict and
    the same grid, whatever the clock shows, whatever the other fields
    of the object hold and however deep the call stack may grow: the
    candidates are tried in the order 1, 2, ..., 9, and the cell they are
    tried at is the first zero of the row-major scan (every cell before
    it holds a non-zero value; no zero at all when none is returned). *)
Theorem solve_deterministic :
  range 1 10 = [1; 2; 3; 4; 5; 6; 7; 8; 9]%Z ∧
  (∀ (g : Grid) r c,
     find_empty_cell g = Ret (Some (r, c)) →
     r < 9 ∧ c < 9 ∧ peek g r c = Some 0%Z ∧
     ∀ i j, j < 9 → i < r ∨ (i = r ∧ j < c) →
            ∃ v, peek g i j = Some v ∧ v ≠ 0%Z) ∧
  (∀ g : Grid,
     find_empty_cell g = Ret None →
     ∀ i j, i < 9 → j < 9 → ∃ v, peek g i j = Some v ∧ v ≠ 0%Z) ∧
  (∀ clock1 clock2 fuel1 fuel2 w1 w2 said1 said2 g1 g2 w1' w2',
     grid (self w1) = grid (self w2) →
     solve clock1 fuel1 w1 = Ret ((said1, g1), w1') →
     solve clock2 fuel2 w2 = Ret ((said2, g2), w2') →
     verdict said1 = verdict said2 ∧ g1 = g2).
Proof.
  split_and!.
  - reflexivity.
  - intros g r c. apply find_empty_cell_Some.
  - intros g. apply find_empty_cell_None.
  - intros clock1 clock2 fuel1 fuel2 w1 w2 said1 said2 g1 g2 w1' w2'.
    apply solve_same_outcome.
Qed.

Lemma solve_deterministic_witness :
  match solve still 82 (fresh sample_grid),
        solve later 100 (reused sample_grid) with
  | Ret ((said1, g1), _), Ret ((said2, g2), _) =>
      verdict said1 = verdict said2 ∧ g1 = g2
  | _, _ => False
  end.
Proof.
  eapply (proj2 (proj2 (proj2 solve_deterministic))
            still later 82 100 (fresh sample_grid) (reused sample_grid)).
  - reflexivity.
  - vm_compute. reflexivity.
  - vm_compute. reflexivity.
Defined.

(** C9. On every 9x9 grid [recursive_solve] terminates: a placement
    into the selected empty cell leaves one empty cell fewer for the
    recursive call, there are at most 81 empty cells, and so a call stack
    deeper than the number of empty cells, in particular one of depth 82
    (the first call and 81 nested ones), is enough for the call to
    return. *)
Theorem recursive_solve_terminates (clock : nat → float) (w : World) :
  wf9 (grid (self w)) →
  count_empty (grid (self w)) ≤ 81 ∧
  (∀ r c d, find_empty_cell (grid (self w)) = Ret (Some (r, c)) →
            d ∈ range 1 10 →
            count_empty (put (grid (self w)) r c d) < count_empty (grid (self w))) ∧
  (∀ fuel, count_empty (grid (self w)) < fuel →
           ∃ b w', recursive_solve clock fuel w = Ret (b, w')) ∧
  (∃ b w', recursive_solve clock 82 w = Ret (b, w')).
Proof.
  intros Hwf. pose proof (count_empty_bound _ Hwf) as Hbound. split_and!.
  - done.
  - intros r c d (_ & _ & H0 & _)%find_empty_cell_Some Hd%elem_of_range.
    pose proof (count_empty_put _ r c d H0). lia.
  - intros fuel Hfuel. by apply recursive_solve_total.
  - apply recursive_solve_total; [done|lia].
Qed.

Lemma recursive_solve_terminates_witness :
  ∃ b w', recursive_solve still 82 (fresh sample_grid) = Ret (b, w').
Proof.
  apply (recursive_solve_terminates still (fresh sample_grid)).
  split; [reflexivity|repeat constructor].
Defined.

(** C10.  The [time] field is written in the base case of
    [recursive_solve] only: a call that returns false leaves it as it
    was, a call that returns true has read the clock once and stored the
    time since [self.start].  So after a [solve] that reports
    'unsolvable' on a freshly built object [time_taken()] is [0.0], and
    the entry [test_solver] collects for that puzzle is [0.0].  The
    average [test_solver] prints is the sum of all the entries collected,
    one per file listed, those zeros among them, divided by the number
    of files listed, and rounded. *)
Theorem time_recorded_on_success_only (h : Host) (clock : nat → float) (fuel : nat) :
  (∀ w w', recursive_solve clock fuel w = Ret (false, w') →
           time (self w') = time (self w)) ∧
  (∀ w w', recursive_solve clock fuel w = Ret (true, w') →
           time (self w') = (clock (ticks w) - start (self w))%float ∧
           ticks w' = S (ticks w)) ∧
  (∀ path s now (g' : Grid) w',
     __init__ h path = Ret s →
     solve clock fuel (mkWorld s now) = Ret ((GridIsUnsolvable, g'), w') →
     time_taken (self w') = 0%float) ∧
  (∀ files now times now' n f s,
     test_loop h clock fuel files [] now = Ret (times, now') →
     files !! n = Some f →
     __init__ h (codes "sudokus_test/" ++ f) = Ret s →
     (∃ k (g' : Grid) w',
        solve clock fuel (mkWorld s k) = Ret ((GridIsUnsolvable, g'), w')) →
     times !! n = Some 0%float) ∧
  (∀ path now avg now',
     test_solver h clock fuel path now = Ret (avg, now') →
     ∃ files times,
       listdir h path = inr files ∧
       test_loop h clock fuel files [] now = Ret (times, now') ∧
       length times = length files ∧
       avg = round (sum_floats h times / float_of_nat (length files))%float 2).
Proof.
  split_and!.
  - by intros w w' ->%recursive_solve_restores.
  - intros w w' ->%recursive_solve_stamps. done.
  - intros path s now g' w' Hinit Hsolve. apply time_taken_zero.
    rewrite (solve_unsolvable_time _ _ _ _ _ Hsolve). by apply (init_time h path).
  - intros files now times now' n f s Hloop Hn Hinit Hbad.
    by apply (test_loop_zero h clock fuel files [] now times now' n f s).
  - intros path now avg now'. unfold test_solver.
    destruct (listdir h path) as [e|files]; [done|]. cbn [from_host bind].
    destruct (test_loop _ _ _ _ _ _) as [[times now'']| |] eqn:Hloop; [|done..].
    cbn [bind].
    apply test_loop_app in Hloop as Hlen. destruct Hlen as (rest & -> & Hlen).
    cbn [app] in *. unfold mean.
    destruct rest as [|t rest]; [done|]. cbn [bind].
    intros [= <- <-]. exists files, (t :: rest). by rewrite <- Hlen.
Qed.

(** A batch of a puzzle without a solution and one that is solved in
    one second of the clock: the entries are 0.0 and 1000.0, and the
    average is 500.0. *)
Lemma time_recorded_on_success_only_witness :
  match solve later 82 (fresh stuck_grid) with
  | Ret ((GridIsUnsolvable, _), w') => time_taken (self w') = 0%float
  | _ => False
  end ∧
  match test_loop sample_disk later 82 [codes "stuck.txt"; codes "sample.txt"] [] 0 with
  | Ret (times, _) => times !! 0 = Some 0%float
  | _ => False
  end ∧
  ∃ files times,
    listdir sample_disk (codes "sudokus_test") = inr files ∧
    test_loop sample_disk later 82 files [] 0 = Ret (times, 3) ∧
    length times = length files ∧
    500%float = round (sum_floats sample_disk times / float_of_nat (length files))%float 2.
Proof.
  split_and!.
  - eapply (proj1 (proj2 (proj2 (time_recorded_on_success_only sample_disk later 82)))
              (codes "sudokus_test/stuck.txt") _ 0).
    + vm_compute. reflexivity.
    + vm_compute. reflexivity.
  - eapply (proj1 (proj2 (proj2 (proj2
                     (time_recorded_on_success_only sample_disk later 82))))
              [codes "stuck.txt"; codes "sample.txt"] 0 _ _ 0 (codes "stuck.txt")).
    + vm_compute. reflexivity.
    + reflexivity.
    + vm_compute. reflexivity.
    + exists 0. eexists _, _. vm_compute. reflexivity.
  - apply (proj2 (proj2 (proj2 (proj2
                    (time_recorded_on_success_only sample_disk later 82))))
             (codes "sudokus_test") 0 500%float 3).
    vm_compute. reflexivity.
Defined.

(** * Further properties of the code *)

(** ** [find_empty_cell] and [check] on a 9x9 grid *)

Lemma first_zero_unique (g : Grid) r c r' c' :
  get g r c = 0%Z → get g r' c' = 0%Z → r < 9 → c < 9 → r' < 9 → c' < 9 →
  (∀ i j, i < 9 → j < 9 → i < r ∨ (i = r ∧ j < c) → get g i j ≠ 0%Z) →
  (∀ i j, i < 9 → j < 9 → i < r' ∨ (i = r' ∧ j < c') → get g i j ≠ 0%Z) →
  (r, c) = (r', c').
Proof.
  intros Hz Hz' Hr Hc Hr' Hc' Hfirst Hfirst'.
  destruct (decide (r' < r ∨ (r' = r ∧ c' < c))) as [Hlt|Hge].
  { by destruct (Hfirst r' c' Hr' Hc' Hlt). }
  destruct (decide (r < r' ∨ (r = r' ∧ c < c'))) as [Hlt'|Hge'].
  { by destruct (Hfirst' r c Hr Hc Hlt'). }
  f_equal; lia.
Qed.

(** X1. On a 9x9 grid [find_empty_cell] returns [None] exactly when no
    cell is zero, and returns [(r, c)] exactly when [(r, c)] is the first
    zero in row-major order. *)
Theorem find_empty_cell_first_zero (g : Grid) :
  wf9 g →
  (find_empty_cell g = Ret None ↔
   ∀ i j, i < 9 → j < 9 → get g i j ≠ 0%Z) ∧
  (∀ r c,
     find_empty_cell g = Ret (Some (r, c)) ↔
     r < 9 ∧ c < 9 ∧ get g r c = 0%Z ∧
     ∀ i j, i < 9 → j < 9 → i < r ∨ (i = r ∧ j < c) → get g i j ≠ 0%Z).
Proof.
  intros Hwf.
  assert (∀ r c, find_empty_cell g = Ret (Some (r, c)) →
            r < 9 ∧ c < 9 ∧ get g r c = 0%Z ∧
            ∀ i j, i < 9 → j < 9 → i < r ∨ (i = r ∧ j < c) → get g i j ≠ 0%Z)
    as Hsome.
  { intros r c (Hr & Hc & H0 & Hbefore)%find_empty_cell_Some.
    split_and!; [done|done|by apply get_peek_zero|].
    intros i j Hi Hj Hlt. destruct (Hbefore i j Hj Hlt) as (v & Hv & Hnz).
    unfold get. by rewrite Hv. }
  assert (find_empty_cell g = Ret None →
          ∀ i j, i < 9 → j < 9 → get g i j ≠ 0%Z) as Hnone.
  { intros Hfind i j Hi Hj.
    destruct (find_empty_cell_None g Hfind i j Hi Hj) as (v & Hv & Hnz).
    unfold get. by rewrite Hv. }
  destruct (find_empty_cell_total g Hwf) as [[[r0 c0]|] Hfind].
  - destruct (Hsome _ _ Hfind) as (Hr0 & Hc0 & Hz0 & Hfirst0). split.
    + rewrite Hfind. split; [done|]. intros Hfull. by destruct (Hfull r0 c0).
    + intros r c. split; [apply Hsome|].
      intros (Hr & Hc & Hz & Hfirst). rewrite Hfind. do 2 f_equal.
      by apply (first_zero_unique g).
  - split; [by split; [apply Hnone|]|].
    intros r c. split; [apply Hsome|].
    intros (Hr & Hc & Hz & _). by destruct (Hnone Hfind r c).
Qed.

Lemma find_empty_cell_first_zero_witness :
  find_empty_cell sample_grid = Ret (Some (8, 8)) ∧
  find_empty_cell sample_solution = Ret None.
Proof.
  split.
  - apply (proj2 (find_empty_cell_first_zero sample_grid wf9_sample_grid) 8 8).
    split_and!; [lia|lia|reflexivity|].
    intros i j Hi Hj Hlt.
    assert (all_cellsb (fun i j => (8 <=? i) && (8 <=? j) ||
              negb (get sample_grid i j =? 0)%Z) = true) as Hall
      by (vm_compute; reflexivity).
    pose proof (proj1 (all_cellsb_spec _) Hall i j Hi Hj) as H. cbn beta in H.
    apply orb_true_iff in H as [H|H].
    + apply andb_true_iff in H as [?%Nat.leb_le ?%Nat.leb_le]. lia.
    + apply negb_true_iff, Z.eqb_neq in H. exact H.
  - apply (proj1 (find_empty_cell_first_zero sample_solution
                    (wf9_put _ 8 8 9 wf9_sample_grid))).
    intros i j Hi Hj.
    assert (all_cellsb (fun i j => negb (get sample_solution i j =? 0)%Z) = true)
      as Hall by (vm_compute; reflexivity).
    pose proof (proj1 (all_cellsb_spec _) Hall i j Hi Hj) as H. cbn beta in H.
    apply negb_true_iff, Z.eqb_neq in H. exact H.
Defined.

Lemma no_conflict_put (g : Grid) d r c v :
  no_conflict (put g r c v) d r c ↔ no_conflict g d r c.
Proof.
  unfold no_conflict. split; intros (Hrow & Hcol & Hreg); split_and!.
  - intros j Hj Hne. rewrite <- (get_put_ne g r c v) by congruence. by apply Hrow.
  - intros i Hi Hne. rewrite <- (get_put_ne g r c v) by congruence. by apply Hcol.
  - intros i j Hi Hj Hne. rewrite <- (get_put_ne g r c v) by done. by apply Hreg.
  - intros j Hj Hne. rewrite get_put_ne by congruence. by apply Hrow.
  - intros i Hi Hne. rewrite get_put_ne by congruence. by apply Hcol.
  - intros i j Hi Hj Hne. rewrite get_put_ne by done. by apply Hreg.
Qed.

(** X2. On a 9x9 grid the answer of [check] for a position does not
    depend on what the cell at that position holds: a cell never
    conflicts with itself, be it empty, already filled with the digit or
    filled with another one. *)
Theorem check_ignores_target (g : Grid) (d v : Z) (r c : nat) :
  wf9 g → r < 9 → c < 9 →
  check (put g r c v) d (r, c) = check g d (r, c).
Proof.
  intros Hwf Hr Hc.
  destruct (check_spec g d r c Hwf Hr Hc) as (b & -> & Hb).
  destruct (check_spec (put g r c v) d r c (wf9_put g r c v Hwf) Hr Hc)
    as (b' & -> & Hb').
  rewrite no_conflict_put in Hb'. f_equal.
  destruct b, b'; try done; [by apply Hb', Hb|symmetry; by apply Hb, Hb'].
Qed.

Lemma check_ignores_target_witness :
  check (put sample_grid 8 8 9) 9 (8, 8) = check sample_grid 9 (8, 8).
Proof.
  apply (check_ignores_target sample_grid 9 9 8 8).
  - split; [reflexivity|repeat constructor].
  - lia.
  - lia.
Defined.

(** X3. [check] is a validator: a 9x9 grid is a solved Sudoku (every
    row, column and region holds exactly 1..9) if and only if every cell
    holds a digit of 1..9 that [check] accepts at the cell's own
    position. *)
Theorem check_validates (g : Grid) :
  wf9 g →
  solved_grid g ↔
  ∀ i j, i < 9 → j < 9 →
         (1 ≤ get g i j ≤ 9)%Z ∧ check g (get g i j) (i, j) = Ret true.
Proof.
  intros Hwf. split.
  - intros Hok%solved_all_cells_ok i j Hi Hj.
    destruct (Hok i j Hi Hj) as [Hd Hnc]. split; [done|].
    by apply check_true_iff.
  - intros Hok. apply all_cells_ok_solved. intros i j Hi Hj.
    destruct (Hok i j Hi Hj) as [Hd Hcheck]. split; [done|].
    by apply check_true_iff in Hcheck.
Qed.

Lemma check_validates_witness : solved_grid sample_solution.
Proof.
  apply (check_validates sample_solution).
  - split; [reflexivity|repeat constructor].
  - intros i j Hi Hj.
    assert (all_cells_okb sample_solution = true) as Hall
      by (vm_compute; reflexivity).
    pose proof (proj1 (all_cellsb_spec _) Hall i j Hi Hj) as H.
    unfold cell_okb in H.
    apply andb_true_iff in H as [[H1 H9]%andb_true_iff Hcheck].
    split; [lia|]. by destruct (check _ _ _) as [[|]| |].
Defined.

(** ** The completion [solve] finds *)

Lemma solve_loop_true_first rec row col candidates w w' :
  restores rec →
  peek (grid (self w)) row col = Some 0%Z →
  solve_loop rec row col candidates w = Ret (true, w') →
  ∃ pre i post,
    candidates = pre ++ i :: post ∧
    check (grid (self w)) i (row, col) = Ret true ∧
    rec (with_grid w (put (grid (self w)) row col i)) = Ret (true, w') ∧
    ∀ d, d ∈ pre →
         check (grid (self w)) d (row, col) = Ret false ∨
         (check (grid (self w)) d (row, col) = Ret true ∧
          ∃ w1, rec (with_grid w (put (grid (self w)) row col d)) = Ret (false, w1)).
Proof.
  intros Hrec H0. induction candidates as [|i candidates IH]; [done|].
  rewrite solve_loop_cons by done.
  destruct (check _ i _) as [[|]| |] eqn:Hcheck; try done.
  - destruct (rec _) as [[[|] w2]| |] eqn:Hcall; try done.
    + intros [= <-]. exists [], i, candidates. split_and!; [done..|].
      by intros d ?%elem_of_nil.
    + intros (pre & i' & post & -> & ? & ? & Hpre)%IH.
      exists (i :: pre), i', post. split_and!; [done..|].
      intros d [->|Hd]%elem_of_cons; [right; eauto|by apply Hpre].
  - intros (pre & i' & post & -> & ? & ? & Hpre)%IH.
    exists (i :: pre), i', post. split_and!; [done..|].
    intros d [->|Hd]%elem_of_cons; [by left|by apply Hpre].
Qed.

(** The candidates before [i] in [range a b] are the smaller ones. *)
Lemma range_split a b pre i post d :
  range a b = pre ++ i :: post → (a ≤ d < i)%Z → d ∈ pre.
Proof.
  intros Hsplit Hd.
  assert (i = (a + Z.of_nat (length pre))%Z) as Hi.
  { assert (range a b !! length pre = Some i) as Hlook
      by (rewrite Hsplit; by apply list_lookup_middle).
    unfold range in Hlook. rewrite list_lookup_fmap in Hlook.
    destruct (seq 0 (Z.to_nat (b - a)) !! length pre) as [k|] eqn:Hk; [|done].
    apply lookup_seq in Hk as [-> _]. by injection Hlook as <-. }
  assert (range a b !! Z.to_nat (d - a) = Some d) as Hlook.
  { unfold range. rewrite list_lookup_fmap.
    assert (length (range a b) = Z.to_nat (b - a)) as Hlen
      by (unfold range; by rewrite length_map, length_seq).
    rewrite Hsplit, length_app in Hlen. cbn in Hlen.
    rewrite lookup_seq_lt by lia. cbn. f_equal. lia. }
  rewrite Hsplit, lookup_app_l in Hlook by lia.
  by eapply list_elem_of_lookup_2.
Qed.

Section Least.

Variable clock : nat → float.

Lemma recursive_solve_least fuel : ∀ w w' t,
  wf9 (grid (self w)) →
  recursive_solve clock fuel w = Ret (true, w') →
  completes (grid (self w)) t →
  lex_le (grid (self w')) t.
Proof.
  induction fuel as [|fuel IH]; intros w w' t Hwf Hrun Ht; [done|].
  pose proof (recursive_solve_sound clock _ _ _ Hwf Hrun)
    as (_ & Hkeep' & _ & _).
  rewrite recursive_solve_S in Hrun.
  destruct (find_empty_cell _) as [[[row col]|]| |] eqn:Hfind; try done.
  - apply find_empty_cell_Some in Hfind as (Hr & Hc & H0 & Hbefore).
    pose proof (get_peek_zero _ _ _ H0) as Hz.
    apply solve_loop_true_first in Hrun
      as (pre & i & post & Hsplit & Hcheck & Hcall & Hpre);
      [|apply recursive_solve_restores|done].
    assert (1 ≤ get t row col ≤ 9)%Z as Hd.
    { destruct Ht as (_ & _ & _ & Hplaced). by destruct (Hplaced row col Hr Hc Hz). }
    assert (1 ≤ i < 10)%Z as Hi.
    { apply elem_of_range. rewrite Hsplit. apply elem_of_app. right. left. }
    destruct (Z.lt_trichotomy (get t row col) i) as [Hlt|[Heq|Hgt]].
    + exfalso. destruct (Hpre (get t row col)) as [Hno|(_ & w1 & Hfail)].
      { apply (range_split 1 10 pre i post); [done|lia]. }
      * apply check_false_iff in Hno; [|done..]. apply Hno.
        by apply completes_free.
      * apply (recursive_solve_exhaustive _ _ _ _ t) in Hfail;
          [|rewrite grid_with_grid; by apply wf9_put].
        apply Hfail. rewrite grid_with_grid. by apply completes_step.
    + apply (IH _ _ t) in Hcall; [done|rewrite grid_with_grid; by apply wf9_put|].
      rewrite grid_with_grid, <- Heq. by apply completes_step.
    + right. exists row, col. split_and!; [done|done| |].
      * apply recursive_solve_sound in Hcall;
          [|rewrite grid_with_grid; by apply wf9_put].
        rewrite grid_with_grid in Hcall. destruct Hcall as (_ & Hkeep1 & _ & _).
        rewrite Hkeep1 by (rewrite ?get_put_eq; done || lia).
        rewrite get_put_eq by done. lia.
      * intros i0 j0 Hi0 Hj0 Hlt.
        destruct (Hbefore i0 j0 Hj0 Hlt) as (v & Hv & Hnz).
        assert (get (grid (self w)) i0 j0 ≠ 0%Z) as Hnz'
          by (unfold get; by rewrite Hv).
        destruct Ht as (_ & Hkeept & _ & _).
        by rewrite Hkeep', Hkeept.
  - injection Hrun as <-. left. intros i j Hi Hj.
    destruct (find_empty_cell_None _ Hfind i j Hi Hj) as (v & Hv & Hnz).
    destruct Ht as (_ & Hkeept & _ & _). cbn. symmetry. apply Hkeept; [done..|].
    unfold get. by rewrite Hv.
Qed.

End Least.

(** X4. The grid [solve] reports solved is the least valid completion
    of the input: whatever other solved Sudoku extends the given cells,
    the two agree on all 81 cells or the first cell, in row-major order,
    at which they differ holds the smaller digit in the grid [solve]
    returns. *)
Theorem solve_least_completion (clock : nat → float) (fuel : nat) (w : World)
    (g' t : Grid) :
  wf9 (grid (self w)) → solved_by clock fuel w g' →
  valid_completion (grid (self w)) t → lex_le g' t.
Proof.
  intros Hwf (w' & Hcall & ->)%solved_by_inv Ht%valid_completion_completes.
  by apply (recursive_solve_least clock fuel (started clock w)).
Qed.

Lemma solve_least_completion_witness :
  ∃ g', solved_by still 82 (fresh zeros_grid) g' ∧ lex_le g' sample_solution.
Proof.
  eexists. split.
  - eexists _, _. vm_compute. reflexivity.
  - apply (solve_least_completion still 82 (fresh zeros_grid)).
    + split; [reflexivity|repeat constructor].
    + eexists _, _. vm_compute. reflexivity.
    + apply valid_completionb_spec. vm_compute. reflexivity.
Defined.

(** ** Calling [solve] again, and what [solve] leaves in the object *)

Lemma recursive_solve_full clock fuel : ∀ w w',
  recursive_solve clock fuel w = Ret (true, w') →
  find_empty_cell (grid (self w')) = Ret None.
Proof.
  induction fuel as [|fuel IH]; intros w w'; [done|].
  rewrite recursive_solve_S.
  destruct (find_empty_cell _) as [[[row col]|]| |] eqn:Hfind; try done.
  - apply find_empty_cell_Some in Hfind as (_ & _ & H0 & _).
    intros (i & _ & _ & Hcall)%solve_loop_true;
      [|apply recursive_solve_restores|done].
    by apply IH in Hcall.
  - by intros [= <-].
Qed.

(** X5. Once [solve] has reported success, calling [solve] again on the
    same object reports success again with the same grid, whatever the
    clock, at the first call of [recursive_solve] and with two more
    clock readings. *)
Theorem solve_again (clock clock2 : nat → float) (fuel fuel2 : nat) (w w' : World)
    (ms : float) (g' : Grid) :
  solve clock fuel w = Ret ((GridSolvedIn ms, g'), w') →
  ∃ ms2 w'',
    solve clock2 (S fuel2) w' = Ret ((GridSolvedIn ms2, g'), w'') ∧
    grid (self w'') = g' ∧ ticks w'' = ticks w' + 2.
Proof.
  intros Hsolve.
  destruct (solved_by_inv clock fuel w g') as (u & Hcall & ->);
    [by exists ms, w'|].
  rewrite solve_eq, Hcall in Hsolve. injection Hsolve as _ <-.
  apply recursive_solve_full in Hcall.
  rewrite solve_eq, recursive_solve_S.
  change (grid (self (started clock2 u))) with (grid (self u)). rewrite Hcall.
  eexists _, _. split_and!; [done|done|]. cbn. lia.
Qed.

Lemma solve_again_witness :
  match solve still 82 (fresh sample_grid) with
  | Ret (_, w') =>
      ∃ ms2 w'',
        solve later 1 w' = Ret ((GridSolvedIn ms2, sample_solution), w'') ∧
        grid (self w'') = sample_solution ∧ ticks w'' = ticks w' + 2
  | _ => False
  end.
Proof.
  eapply (solve_again still later 82 0 (fresh sample_grid)).
  vm_compute. reflexivity.
Defined.

(** X6. What [solve] leaves in the object besides the grid.  The flag
    [solved] is never written: it is after the call what it was before,
    success or not.  [start] is the first clock reading of the call.  On
    success the call has read the clock twice, [time] is the float
    difference of the second reading and the first, and the number of
    milliseconds reported is [time_taken()], the float product of [time]
    and 1000 rounded to two decimals; on failure it has read the clock
    once and [time] is what it was. *)
Theorem solve_bookkeeping (clock : nat → float) (fuel : nat) (w w' : World)
    (said : report) (g' : Grid) :
  solve clock fuel w = Ret ((said, g'), w') →
  solved (self w') = solved (self w) ∧
  start (self w') = clock (ticks w) ∧
  grid (self w') = g' ∧
  match said with
  | GridSolvedIn ms =>
      ticks w' = ticks w + 2 ∧
      time (self w') = (clock (S (ticks w)) - clock (ticks w))%float ∧
      ms = round (time (self w') * 1000)%float 2
  | GridIsUnsolvable =>
      ticks w' = ticks w + 1 ∧ time (self w') = time (self w)
  end.
Proof.
  rewrite solve_eq.
  destruct (recursive_solve _ _ _) as [[[|] u]| |] eqn:Hcall; [| |done..].
  - intros [= <- <- <-]. apply recursive_solve_stamps in Hcall.
    rewrite Hcall. cbn. split_and!; try done. lia.
  - intros [= <- <- <-]. apply recursive_solve_restores in Hcall as ->.
    cbn. split_and!; try done. lia.
Qed.

(** On a clock that shows the tenths of a second, the fifth and the
    sixth reading are the floats nearest to 0.5 and 0.6; their float
    difference is a little less than 0.1, and 100.0 ms are reported. *)
Lemma solve_bookkeeping_witness :
  match solve tenths 82 (reused sample_grid) with
  | Ret ((GridSolvedIn ms, _), w') =>
      solved (self w') = true ∧ start (self w') = tenths 5 ∧
      ticks w' = 7 ∧ time (self w') = (tenths 6 - tenths 5)%float ∧
      PrimFloat.ltb (time (self w')) (tenths 1) = true ∧
      ms = 100%float
  | _ => False
  end.
Proof.
  destruct (solve_bookkeeping tenths 82 (reused sample_grid)
              (mkWorld (mkSudoku sample_solution true (tenths 5)
                          (tenths 6 - tenths 5)%float) 7)
              (GridSolvedIn 100%float)
              sample_solution)
    as (Hs & Hstart & _ & Hticks & Htime & Hms).
  { vm_compute. reflexivity. }
  vm_compute. done.
Defined.

(** ** Grids that are not 9x9 *)

Lemma cell_raises (g : Grid) i j e :
  cell g i j = Raise e → e = IndexError ∧ peek g i j = None.
Proof.
  rewrite cell_peek. destruct (peek g i j); [done|]. by intros [= <-].
Qed.

Lemma find_in_row_raises (g : Grid) i n e : ∀ a,
  find_in_row g i (seq a n) = Raise e →
  e = IndexError ∧ ∃ j, a ≤ j < a + n ∧ peek g i j = None.
Proof.
  induction n as [|n IH]; intros a; [done|].
  change (seq a (S n)) with (a :: seq (S a) n). cbn [find_in_row].
  destruct (cell g i a) as [v|e'|] eqn:Hcell; cbn [bind]; [| |done].
  - destruct (v =? 0)%Z; [done|].
    intros (-> & j & Hj & Hnone)%IH. split; [done|]. exists j. split; [lia|done].
  - intros [= ->]. apply cell_raises in Hcell as [-> Hnone].
    split; [done|]. exists a. split; [lia|done].
Qed.

Lemma find_in_rows_raises (g : Grid) n e : ∀ a,
  find_in_rows g (seq a n) = Raise e →
  e = IndexError ∧ ∃ i j, a ≤ i < a + n ∧ j < 9 ∧ peek g i j = None.
Proof.
  induction n as [|n IH]; intros a; [done|].
  change (seq a (S n)) with (a :: seq (S a) n). cbn [find_in_rows].
  destruct (find_in_row g a (seq 0 9)) as [[p|]|e'|] eqn:Hrow; cbn [bind];
    [done| | |done].
  - intros (-> & i & j & Hi & Hj & Hnone)%IH. split; [done|].
    exists i, j. split_and!; [lia|lia|done|done].
  - intros [= ->]. apply find_in_row_raises in Hrow as (-> & j & Hj & Hnone).
    split; [done|]. exists a, j. split_and!; [lia|lia|lia|done].
Qed.

Lemma find_empty_cell_raises (g : Grid) e :
  find_empty_cell g = Raise e → e = IndexError ∧ lacks_cell g.
Proof.
  intros (-> & i & j & Hi & Hj & Hnone)%find_in_rows_raises.
  split; [done|]. exists i, j. split_and!; [lia|done|done].
Qed.

Lemma check_lines_raises (g : Grid) d col row ixs e :
  col < 9 → row < 9 → Forall (fun i => i < 9) ixs →
  check_lines g d col row ixs = Raise e → e = IndexError ∧ lacks_cell g.
Proof.
  intros Hcol Hrow. induction 1 as [|i ixs Hi _ IH]; [done|].
  cbn [check_lines].
  destruct (negb (col =? i)); cbn [bind].
  - destruct (cell g i row) as [v|e'|] eqn:Hcell; cbn [bind]; [| |done].
    + destruct (v =? d)%Z; [done|].
      destruct (negb (row =? i)); cbn [bind]; [|done].
      destruct (cell g col i) as [v'|e'|] eqn:Hcell'; cbn [bind]; [| |done].
      * by destruct (v' =? d)%Z.
      * intros [= ->]. apply cell_raises in Hcell' as [-> Hnone].
        split; [done|]. by exists col, i.
    + intros [= ->]. apply cell_raises in Hcell as [-> Hnone].
      split; [done|]. by exists i, row.
  - destruct (negb (row =? i)); cbn [bind]; [|done].
    destruct (cell g col i) as [v'|e'|] eqn:Hcell'; cbn [bind]; [| |done].
    + by destruct (v' =? d)%Z.
    + intros [= ->]. apply cell_raises in Hcell' as [-> Hnone].
      split; [done|]. by exists col, i.
Qed.

Lemma check_region_row_raises (g : Grid) d col row i js e :
  i < 9 → Forall (fun j => j < 9) js →
  check_region_row g d col row i js = Raise e → e = IndexError ∧ lacks_cell g.
Proof.
  intros Hi. induction 1 as [|j js Hj _ IH]; [done|].
  cbn [check_region_row].
  destruct (cell g i j) as [v|e'|] eqn:Hcell; cbn [bind]; [| |done].
  - by destruct (_ && _).
  - intros [= ->]. apply cell_raises in Hcell as [-> Hnone].
    split; [done|]. by exists i, j.
Qed.

Lemma check_region_raises (g : Grid) d col row ixs js e :
  Forall (fun i => i < 9) ixs → Forall (fun j => j < 9) js →
  check_region g d col row ixs js = Raise e → e = IndexError ∧ lacks_cell g.
Proof.
  intros Hixs Hjs. induction Hixs as [|i ixs Hi _ IH]; [done|].
  cbn [check_region].
  destruct (check_region_row g d col row i js) as [[|]|e'|] eqn:Hrow;
    cbn [bind]; [done|done| |done].
  intros [= ->]. by apply check_region_row_raises in Hrow.
Qed.

Lemma check_raises (g : Grid) d r c e :
  r < 9 → c < 9 →
  check g d (r, c) = Raise e → e = IndexError ∧ lacks_cell g.
Proof.
  intros Hr Hc. unfold check.
  destruct (check_lines g d r c (seq 0 9)) as [[|]|e'|] eqn:Hlines;
    cbn [bind]; [|done| |done].
  - apply check_region_raises; apply Forall_seq; intros i Hi.
    + div3 r. lia.
    + div3 c. lia.
  - intros [= ->]. apply check_lines_raises in Hlines; [done..|].
    apply Forall_seq. lia.
Qed.

Lemma lacks_cell_put (g : Grid) r c v :
  is_Some (peek g r c) → lacks_cell (put g r c v) → lacks_cell g.
Proof.
  intros Hsome (i & j & Hi & Hj & Hnone). exists i, j. split_and!; [done..|].
  destruct (decide ((i, j) = (r, c))) as [[= -> ->]|Hne].
  - by rewrite peek_put_eq in Hnone.
  - by rewrite peek_put_ne in Hnone.
Qed.

Section Shape.

Variable clock : nat → float.

Lemma solve_loop_raises rec row col candidates w e :
  restores rec → peek (grid (self w)) row col = Some 0%Z → row < 9 → col < 9 →
  solve_loop rec row col candidates w = Raise e →
  (e = IndexError ∧ lacks_cell (grid (self w))) ∨
  ∃ i, rec (with_grid w (put (grid (self w)) row col i)) = Raise e.
Proof.
  intros Hrec H0 Hr Hc. induction candidates as [|i candidates IH]; [done|].
  rewrite solve_loop_cons by done.
  destruct (check _ i _) as [[|]|e'|] eqn:Hcheck; [|done| |done].
  - destruct (rec _) as [[[|] w2]|e'|] eqn:Hcall; [done|done| |done].
    intros [= ->]. right. eauto.
  - intros [= ->]. left. by apply check_raises in Hcheck.
Qed.

Lemma recursive_solve_raises fuel : ∀ w e,
  recursive_solve clock fuel w = Raise e →
  e = IndexError ∧ lacks_cell (grid (self w)).
Proof.
  induction fuel as [|fuel IH]; intros w e; [done|].
  rewrite recursive_solve_S.
  destruct (find_empty_cell _) as [[[row col]|]|e'|] eqn:Hfind; [|done| |done].
  - apply find_empty_cell_Some in Hfind as (Hr & Hc & H0 & _).
    intros [?|[i (-> & Hlacks)%IH]]%solve_loop_raises;
      [done| |apply recursive_solve_restores|done..].
    split; [done|]. rewrite grid_with_grid in Hlacks.
    apply lacks_cell_put in Hlacks; [done|]. by rewrite H0.
  - intros [= ->]. by apply find_empty_cell_raises.
Qed.

Lemma recursive_solve_has_cells fuel : ∀ w w',
  recursive_solve clock fuel w = Ret (true, w') →
  ¬ lacks_cell (grid (self w)).
Proof.
  induction fuel as [|fuel IH]; intros w w'; [done|].
  rewrite recursive_solve_S.
  destruct (find_empty_cell _) as [[[row col]|]| |] eqn:Hfind; try done.
  - apply find_empty_cell_Some in Hfind as (_ & _ & H0 & _).
    intros (i & _ & _ & Hcall)%solve_loop_true;
      [|apply recursive_solve_restores|done].
    apply IH in Hcall. rewrite grid_with_grid in Hcall.
    intros (i0 & j0 & Hi0 & Hj0 & Hnone). apply Hcall.
    exists i0, j0. split_and!; [done..|].
    rewrite peek_put_ne; [done|]. intros [= -> ->]. congruence.
  - intros _ (i & j & Hi & Hj & Hnone).
    destruct (find_empty_cell_None _ Hfind i j Hi Hj) as (v & Hv & _).
    congruence.
Qed.

End Shape.

(** X7. The only exception [solve] raises is [IndexError], and it
    raises it only on a grid that lacks one of the 81 cells of its
    first nine rows and columns; on a 9x9 grid it raises nothing. *)
Theorem solve_raises_index_error (clock : nat → float) (fuel : nat) (w : World)
    (e : exn) :
  solve clock fuel w = Raise e →
  e = IndexError ∧ lacks_cell (grid (self w)) ∧ ¬ wf9 (grid (self w)).
Proof.
  rewrite solve_eq.
  destruct (recursive_solve _ _ _) as [[[|] u]|e'|] eqn:Hcall; [done|done| |done].
  intros [= ->]. apply recursive_solve_raises in Hcall as [-> Hlacks].
  split_and!; [done|done|].
  intros Hwf. destruct Hlacks as (i & j & Hi & Hj & Hnone).
  change (grid (self (started clock w))) with (grid (self w)) in Hnone.
  by rewrite wf9_peek in Hnone.
Qed.

Lemma solve_raises_index_error_witness :
  solve still 82 (fresh short_grid) = Raise IndexError ∧
  lacks_cell short_grid ∧ ¬ wf9 short_grid.
Proof.
  assert (solve still 82 (fresh short_grid) = Raise IndexError) as Hrun
    by (vm_compute; reflexivity).
  split; [done|].
  by apply (solve_raises_index_error still 82 (fresh short_grid) IndexError).
Defined.

(** X8. On a grid that lacks one of those 81 cells, for instance the
    grid of a source of fewer than nine lines, [solve] never reports
    success. *)
Theorem solve_needs_all_cells (clock : nat → float) (fuel : nat) (w : World)
    (g' : Grid) :
  lacks_cell (grid (self w)) → ¬ solved_by clock fuel w g'.
Proof.
  intros Hlacks (w' & Hcall & _)%solved_by_inv.
  by apply recursive_solve_has_cells in Hcall.
Qed.

Lemma solve_needs_all_cells_witness :
  ¬ solved_by still 82 (fresh short_grid) short_grid.
Proof.
  apply (solve_needs_all_cells still 82 (fresh short_grid)).
  exists 8, 0. split_and!; [lia|lia|reflexivity].
Defined.

(** ** Rows after the ninth *)

Lemma peek_app (g extra : Grid) i j :
  i < length g → peek (g ++ extra) i j = peek g i j.
Proof. intros Hi. unfold peek. by rewrite lookup_app_l. Qed.

Lemma put_app (g extra : Grid) i j v :
  i < length g → put (g ++ extra) i j v = put g i j v ++ extra.
Proof.
  intros Hi. unfold put. rewrite lookup_app_l by done.
  destruct (g !! i) as [row|]; [|done]. by rewrite insert_app_l.
Qed.

(** Two grids with the same 81 cells. *)
Lemma find_in_row_ext (g1 g2 : Grid) i js :
  (∀ i j, i < 9 → j < 9 → cell g1 i j = cell g2 i j) →
  i < 9 → Forall (fun j => j < 9) js →
  find_in_row g1 i js = find_in_row g2 i js.
Proof.
  intros Hcell Hi. induction 1 as [|j js Hj _ IH]; [done|].
  cbn [find_in_row]. rewrite Hcell, IH by done. done.
Qed.

Lemma find_empty_cell_ext (g1 g2 : Grid) :
  (∀ i j, i < 9 → j < 9 → cell g1 i j = cell g2 i j) →
  find_empty_cell g1 = find_empty_cell g2.
Proof.
  intros Hcell. unfold find_empty_cell.
  assert (Forall (fun i => i < 9) (seq 0 9)) as Hixs by (apply Forall_seq; lia).
  induction Hixs as [|i ixs Hi _ IH]; [done|].
  cbn [find_in_rows].
  rewrite (find_in_row_ext g1 g2 i (seq 0 9) Hcell Hi) by (apply Forall_seq; lia).
  by rewrite IH.
Qed.

Lemma check_lines_ext (g1 g2 : Grid) d col row ixs :
  (∀ i j, i < 9 → j < 9 → cell g1 i j = cell g2 i j) →
  col < 9 → row < 9 → Forall (fun i => i < 9) ixs →
  check_lines g1 d col row ixs = check_lines g2 d col row ixs.
Proof.
  intros Hcell Hcol Hrow. induction 1 as [|i ixs Hi _ IH]; [done|].
  cbn [check_lines]. rewrite !Hcell, IH by done. done.
Qed.

Lemma check_region_row_ext (g1 g2 : Grid) d col row i js :
  (∀ i j, i < 9 → j < 9 → cell g1 i j = cell g2 i j) →
  i < 9 → Forall (fun j => j < 9) js →
  check_region_row g1 d col row i js = check_region_row g2 d col row i js.
Proof.
  intros Hcell Hi. induction 1 as [|j js Hj _ IH]; [done|].
  cbn [check_region_row]. rewrite Hcell, IH by done. done.
Qed.

Lemma check_region_ext (g1 g2 : Grid) d col row ixs js :
  (∀ i j, i < 9 → j < 9 → cell g1 i j = cell g2 i j) →
  Forall (fun i => i < 9) ixs → Forall (fun j => j < 9) js →
  check_region g1 d col row ixs js = check_region g2 d col row ixs js.
Proof.
  intros Hcell Hixs Hjs. induction Hixs as [|i ixs Hi _ IH]; [done|].
  cbn [check_region].
  rewrite (check_region_row_ext g1 g2 d col row i js Hcell Hi Hjs), IH. done.
Qed.

Lemma check_ext (g1 g2 : Grid) d r c :
  (∀ i j, i < 9 → j < 9 → cell g1 i j = cell g2 i j) →
  r < 9 → c < 9 → check g1 d (r, c) = check g2 d (r, c).
Proof.
  intros Hcell Hr Hc. unfold check.
  rewrite (check_lines_ext g1 g2 d r c (seq 0 9) Hcell Hr Hc)
    by (apply Forall_seq; lia).
  rewrite (check_region_ext g1 g2 d r c _ _ Hcell); [done| |];
    apply Forall_seq; intros i Hi; [div3 r|div3 c]; lia.
Qed.

Lemma cell_app (g extra : Grid) i j :
  wf9 g → i < 9 → cell (g ++ extra) i j = cell g i j.
Proof.
  intros [Hlen _] Hi. rewrite !cell_peek, peek_app; [done|lia].
Qed.

Section ExtraRows.

Variables (clock : nat → float) (extra : Grid).

Lemma solve_loop_app rec1 rec2 row col candidates w :
  restores rec1 → restores rec2 →
  wf9 (grid (self w)) → row < 9 → col < 9 →
  peek (grid (self w)) row col = Some 0%Z →
  (∀ w1, wf9 (grid (self w1)) →
         rec2 (with_grid w1 (grid (self w1) ++ extra)) = widen extra (rec1 w1)) →
  solve_loop rec2 row col candidates (with_grid w (grid (self w) ++ extra)) =
  widen extra (solve_loop rec1 row col candidates w).
Proof.
  intros Hrec1 Hrec2 Hwf Hr Hc H0 Hrec.
  assert (peek (grid (self w) ++ extra) row col = Some 0%Z) as H0'.
  { rewrite peek_app; [done|]. destruct Hwf. lia. }
  induction candidates as [|i candidates IH]; [done|].
  rewrite !solve_loop_cons by done. rewrite grid_with_grid.
  rewrite (check_ext (grid (self w) ++ extra) (grid (self w)))
    by (done || intros; by apply cell_app).
  destruct (check _ i _) as [[|]| |]; [|done..].
  rewrite with_grid_twice, put_app by (destruct Hwf; lia).
  pose proof (Hrec (with_grid w (put (grid (self w)) row col i))) as Hcall.
  rewrite grid_with_grid, with_grid_twice in Hcall.
  rewrite Hcall by (by apply wf9_put).
  by destruct (rec1 _) as [[[|] w2]| |].
Qed.

Lemma recursive_solve_app fuel : ∀ w,
  wf9 (grid (self w)) →
  recursive_solve clock fuel (with_grid w (grid (self w) ++ extra)) =
  widen extra (recursive_solve clock fuel w).
Proof.
  induction fuel as [|fuel IH]; intros w Hwf; [done|].
  rewrite !recursive_solve_S, grid_with_grid.
  rewrite (find_empty_cell_ext (grid (self w) ++ extra) (grid (self w)))
    by (intros; by apply cell_app).
  destruct (find_empty_cell _) as [[[row col]|]| |] eqn:Hfind; [| |done..].
  - apply find_empty_cell_Some in Hfind as (Hr & Hc & H0 & _).
    by apply solve_loop_app; try apply recursive_solve_restores.
  - done.
Qed.

End ExtraRows.

(** X9. Rows after the ninth are ignored: on a grid of nine rows of
    nine cells followed by any further rows, [solve] reports what it
    reports on the first nine rows alone and returns the grid it returns
    there followed by the further rows, untouched. *)
Theorem solve_ignores_extra_rows (clock : nat → float) (fuel : nat) (w w' : World)
    (extra : Grid) (said : report) (g' : Grid) :
  wf9 (grid (self w)) →
  solve clock fuel w = Ret ((said, g'), w') →
  solve clock fuel (with_grid w (grid (self w) ++ extra)) =
  Ret ((said, g' ++ extra), with_grid w' (g' ++ extra)).
Proof.
  intros Hwf. rewrite !solve_eq.
  change (started clock (with_grid w (grid (self w) ++ extra)))
    with (with_grid (started clock w) (grid (self (started clock w)) ++ extra)).
  rewrite recursive_solve_app by done.
  destruct (recursive_solve _ _ _) as [[[|] u]| |]; [| |done..];
    intros [= <- <- <-]; done.
Qed.

Lemma solve_ignores_extra_rows_witness :
  ∃ ms w',
    solve still 82 (fresh (sample_grid ++ [[0; 0; 7]%Z; []])) =
    Ret ((GridSolvedIn ms, sample_solution ++ [[0; 0; 7]%Z; []]), w').
Proof.
  eexists _, _.
  eapply (solve_ignores_extra_rows still 82 (fresh sample_grid) _
            [[0; 0; 7]%Z; []] _ sample_solution).
  - split; [reflexivity|repeat constructor].
  - vm_compute. reflexivity.
Defined.

(** ** What [load_grid] returns and raises *)

Lemma digits_decimal9 (h : Host) (s : ustr) :
  decimal9 h s →
  length (digits h s) = 9 ∧ Forall (fun x => (0 ≤ x ≤ 9)%Z) (digits h s).
Proof.
  intros [Hnm Hdec]. unfold digits. split.
  - rewrite length_fmap. destruct (decide (length s = 9)) as [|Hne]; [done|].
    destruct Hnm. by left.
  - apply Forall_fmap. eapply Forall_impl; [exact Hdec|].
    intros c [v Hv]. cbn. rewrite Hv. cbn. by apply (decimal_range h c).
Qed.

(** X10. A grid that [load_grid] returns has one row per non-blank line
    of the source, every row has nine cells, and every cell is one of
    0..9; so a source of nine non-blank lines that loads gives a 9x9
    grid. *)
Theorem load_grid_shape (h : Host) (path : ustr) (f : list ustr) (g : Grid) :
  read_lines h path = inr f → load_grid h path = Ret g →
  length g = length (nonblank h f) ∧
  Forall (fun row : list Z =>
            length row = 9 ∧ Forall (fun x => (0 ≤ x ≤ 9)%Z) row) g ∧
  (length (nonblank h f) = 9 → wf9 g).
Proof.
  intros Hread Hload. rewrite (load_grid_read h path f Hread) in Hload.
  destruct (load_rows_cases h (nonblank h f))
    as [[Hall Hrun]|[(? & ? & ? & _ & _ & _ & Hrun)|(? & ? & ? & ? & _ & _ & _ & _ & Hrun)]];
    rewrite Hrun in Hload; [|done..].
  injection Hload as <-.
  assert (Forall (fun row : list Z =>
            length row = 9 ∧ Forall (fun x => (0 ≤ x ≤ 9)%Z) row)
            (digits h <$> nonblank h f)) as Hrows.
  { apply Forall_fmap. eapply Forall_impl; [exact Hall|].
    intros s Hs. by apply digits_decimal9. }
  split_and!; [by rewrite length_fmap|done|].
  intros Hnine. split; [by rewrite length_fmap|].
  eapply Forall_impl; [exact Hrows|]. by intros row [? _].
Qed.

Lemma load_grid_shape_witness :
  length sample_grid = length (nonblank sample_disk sample_file) ∧
  Forall (fun row : list Z =>
            length row = 9 ∧ Forall (fun x => (0 ≤ x ≤ 9)%Z) row) sample_grid ∧
  (length (nonblank sample_disk sample_file) = 9 → wf9 sample_grid).
Proof.
  apply (load_grid_shape sample_disk (codes "sudokus_test/sample.txt")
           sample_file sample_grid).
  - reflexivity.
  - vm_compute. reflexivity.
Defined.

(** X11. When [load_grid] fails without naming a row.  A file that
    cannot be opened or read makes [load_grid] raise what the host
    raises.  On a source that is read, the [ValueError] of [int] is
    raised exactly when the first row that is not nine decimal digits
    passes the check of [load_grid]: it is nine characters long and
    [str.isdigit] accepts every one of them.  The error quotes the first
    character of that row in which [int] reads no value, which is a
    character that [str.isdigit] accepts, and it names no row. *)
Theorem load_grid_errors (h : Host) (path : ustr) :
  (∀ e, read_lines h path = inl e → load_grid h path = Raise (External e)) ∧
  (∀ f, read_lines h path = inr f →
     (∀ lit,
        load_grid h path = Raise (ValueError (InvalidLiteral lit)) ↔
        ∃ k s c,
          nonblank h f !! k = Some s ∧
          Forall (decimal9 h) (take k (nonblank h f)) ∧
          ¬ malformed h s ∧ first_nondecimal h s = Some c ∧ lit = [c]) ∧
     (∀ lit,
        load_grid h path = Raise (ValueError (InvalidLiteral lit)) →
        ∃ c, lit = [c] ∧ isdigit_char h c = true ∧ decimal h c = None)).
Proof.
  split; [apply load_grid_unread|].
  intros f Hread. rewrite (load_grid_read h path f Hread).
  assert (∀ lit,
            load_rows h (nonblank h f) (nonblank h f) [] =
              Raise (ValueError (InvalidLiteral lit)) →
            ∃ k s c,
              nonblank h f !! k = Some s ∧
              Forall (decimal9 h) (take k (nonblank h f)) ∧
              ¬ malformed h s ∧ first_nondecimal h s = Some c ∧ lit = [c])
    as Hfwd.
  { intros lit.
    destruct (load_rows_cases h (nonblank h f))
      as [[_ ->]|[(? & ? & ? & _ & _ & _ & ->)
                 |(good & s & post & c & Hsplit & Hgood & Hs & Hc & ->)]];
      [done..|].
    intros [= <-]. exists (length good), s, c. rewrite Hsplit.
    split_and!; [by apply list_lookup_middle|by rewrite take_app_length|done..]. }
  split.
  - intros lit. split; [apply Hfwd|].
    intros (k & s & c & Hk & Hgood & Hs & Hc & ->).
    rewrite <- (take_drop_middle (nonblank h f) k s Hk) at 2.
    by apply load_rows_literal.
  - intros lit (k & s & c & Hk & _ & Hs & Hc & ->)%Hfwd. exists c.
    apply first_nondecimal_Some in Hc as [Hin Hnone]. split_and!; [done| |done].
    destruct (isdigit h s) eqn:Hdig; [|destruct Hs; by right].
    unfold isdigit in Hdig. destruct s as [|c0 s]; [done|].
    rewrite forallb_forall in Hdig. apply Hdig. by apply list_elem_of_In.
Qed.

Lemma load_grid_errors_witness :
  load_grid sample_disk (codes "missing.txt") = Raise (External FileNotFoundError) ∧
  load_grid sample_disk (codes "squared.txt") =
    Raise (ValueError (InvalidLiteral [178%N])).
Proof.
  split.
  - apply (proj1 (load_grid_errors sample_disk (codes "missing.txt"))).
    reflexivity.
  - apply (proj1 (proj2 (load_grid_errors sample_disk (codes "squared.txt"))
                    [line "123456789"; squared_line; line "12"] eq_refl)).
    exists 1, (178%N :: codes "23456789"), 178%N.
    split_and!; [reflexivity| | |reflexivity|reflexivity].
    + repeat constructor; try (by eexists).
      intros [Hlen|Hdig]; [by apply Hlen|discriminate Hdig].
    + intros [Hlen|Hdig]; [by apply Hlen|discriminate Hdig].
Defined.

(** ** White space and blank lines in the source *)

Section Stripping.

Variable h : Host.








End Stripping.



(** ** What [print_grid] prints *)














(** ** The batch of [test_solver] *)




Lemma load_grid_raises (h : Host) (path : ustr) e :
  load_grid h path = Raise e → (∃ v, e = ValueError v) ∨ (∃ x, e = External x).
Proof.
  destruct (read_lines h path) as [x|f] eqn:Hread.
  - rewrite (load_grid_unread h path x Hread). intros [= <-]. eauto.
  - rewrite (load_grid_read h path f Hread).
    destruct (load_rows_cases h (nonblank h f))
      as [[_ ->]|[(? & ? & ? & _ & _ & _ & ->)|(? & ? & ? & ? & _ & _ & _ & _ & ->)]];
      [done| |]; intros [= <-]; eauto.
Qed.

Lemma solve_raises clock fuel w e :
  solve clock fuel w = Raise e → e = IndexError.
Proof.
  rewrite solve_eq.
  destruct (recursive_solve _ _ _) as [[[|] u]|e'|] eqn:Hcall; [done|done| |done].
  intros [= ->]. by apply recursive_solve_raises in Hcall as [-> _].
Qed.


Section BatchRuns.

Variables (h : Host) (clock : nat → float) (fuel : nat).

Lemma test_loop_raises files : ∀ times now e,
  test_loop h clock fuel files times now = Raise e →
  e = IndexError ∨ (∃ v, e = ValueError v) ∨ (∃ x, e = External x).
Proof.
  induction files as [|f files IH]; intros times now e; [done|].
  rewrite test_loop_cons. unfold __init__.
  destruct (load_grid h _) as [g|e'|] eqn:Hload; cbn [bind]; [| |done].
  - destruct (solve _ _ _) as [[[said g'] w]|e'|] eqn:Hsolve; [| |done].
    + apply IH.
    + intros [= ->]. left. by apply solve_raises in Hsolve.
  - intros [= ->]. right. by apply load_grid_raises in Hload.
Qed.



End BatchRuns.

(** X15. [test_solver] raises [ZeroDivisionError] exactly when the
    directory holds no file: the average of no times is 0 / 0, and no
    other step of the batch raises this exception. *)
Theorem test_solver_empty (h : Host) (clock : nat → float) (fuel : nat)
    (path : ustr) (now : nat) :
  test_solver h clock fuel path now = Raise ZeroDivisionError ↔
  listdir h path = inr [].
Proof.
  unfold test_solver. split; [|by intros ->].
  destruct (listdir h path) as [x|files]; [done|]. cbn [from_host bind].
  destruct (test_loop _ _ _ _ _ _) as [[times now']|e|] eqn:Hloop; cbn [bind];
    [| |done].
  - apply test_loop_app in Hloop as (rest & -> & Hlen).
    destruct files as [|f files]; [done|].
    destruct rest as [|t rest]; [done|]. done.
  - intros [= ->]. by apply test_loop_raises in Hloop as [?|[[? ?]|[? ?]]].
Qed.





Lemma test_solver_empty_witness :
  test_solver sample_disk later 82 (codes "empty") 0 = Raise ZeroDivisionError.
Proof.
  apply (proj2 (test_solver_empty sample_disk later 82 (codes "empty") 0)).
  reflexivity.
Defined.

(** ** The verdict of [solve] and the solutions of the puzzle *)

Lemma valid_completion_consistent (g t : Grid) :
  valid_completion g t → givens_consistent g.
Proof.
  intros (Hwf & Hok%solved_all_cells_ok & Hkeep) i j Hi Hj Hnz.
  destruct (Hok i j Hi Hj) as [Hd Hnc].
  rewrite Hkeep in Hd, Hnc by done. split; [done|].
  rewrite no_conflict_peer in Hnc |- * by done.
  intros i' j' Hi' Hj' Hne Hpeer Heq.
  apply (Hnc i' j' Hi' Hj' Hne Hpeer). rewrite Hkeep; [done..|]. lia.
Qed.

Lemma completes_valid_completion (g g' : Grid) :
  givens_consistent g → completes g g' → valid_completion g g'.
Proof.
  intros Hgiven Hg'. pose proof (completes_consistent g g' Hgiven Hg') as Hok.
  destruct Hg' as (Hwf' & Hkeep & _ & _).
  split_and!; [done|by apply all_cells_ok_solved|done].
Qed.

(** X18. For a 9x9 grid whose given cells do not conflict, the verdict
    of [solve] decides the puzzle: it reports success exactly when some
    solved Sudoku extends the given cells, and the grid it then returns
    is one; it reports failure exactly when none does. *)
Theorem solve_decides (clock : nat → float) (fuel : nat) (w : World) :
  wf9 (grid (self w)) → givens_consistent (grid (self w)) → 81 < fuel →
  (∀ g', solved_by clock fuel w g' → valid_completion (grid (self w)) g') ∧
  ((∃ g', solved_by clock fuel w g') ↔ ∃ t, valid_completion (grid (self w)) t) ∧
  (unsolvable_by clock fuel w (grid (self w)) ↔
   ¬ ∃ t, valid_completion (grid (self w)) t).
Proof.
  intros Hwf Hgiven Hfuel.
  assert (∀ g', solved_by clock fuel w g' → valid_completion (grid (self w)) g')
    as Hsound.
  { intros g' (w' & Hcall & ->)%solved_by_inv.
    apply completes_valid_completion; [done|].
    by apply (recursive_solve_sound clock fuel (started clock w)). }
  assert (unsolvable_by clock fuel w (grid (self w)) →
          ¬ ∃ t, valid_completion (grid (self w)) t) as Hnone.
  { intros (w' & Hcall & _)%unsolvable_by_inv [t Ht%valid_completion_completes].
    by apply (recursive_solve_exhaustive _ _ _ _ t) in Hcall. }
  destruct (recursive_solve_total clock fuel (started clock w)) as (b & w' & Hcall).
  { done. }
  { pose proof (count_empty_bound _ Hwf).
    change (grid (self (started clock w))) with (grid (self w)). lia. }
  destruct b.
  - assert (solved_by clock fuel w (grid (self w'))) as Hyes.
    { exists (time_taken (self w')), w'. by rewrite solve_eq, Hcall. }
    split_and!; [done| |].
    + split; [intros [g' Hg']; eauto|eauto].
    + split; [done|]. intros Hno. exfalso. apply Hno. eauto.
  - assert (unsolvable_by clock fuel w (grid (self w))) as Hno.
    { exists w'. rewrite solve_eq, Hcall.
      by apply recursive_solve_restores in Hcall as ->. }
    split_and!; [done| |done].
    split; [intros [g' Hg']; eauto|].
    intros Ht. by apply Hnone in Ht.
Qed.

Lemma solve_decides_witness :
  (∃ g', solved_by still 82 (fresh sample_grid) g') ↔
  ∃ t, valid_completion sample_grid t.
Proof.
  apply (solve_decides still 82 (fresh sample_grid)).
  - split; [reflexivity|repeat constructor].
  - apply givens_consistentb_spec; [apply wf9_sample_grid|].
    vm_compute. reflexivity.
  - lia.
Defined.

Lemma grid_ext (g t : Grid) :
  wf9 g → wf9 t → (∀ i j, i < 9 → j < 9 → get g i j = get t i j) → g = t.
Proof.
  intros Hg Ht Hcells. apply list_eq. intros i.
  destruct (decide (i < 9)) as [Hi|Hi].
  - destruct Hg as [Hlen Hrows], Ht as [Hlen' Hrows'].
    destruct (lookup_lt_is_Some_2 g i ltac:(lia)) as [row Hrow].
    destruct (lookup_lt_is_Some_2 t i ltac:(lia)) as [row' Hrow'].
    rewrite Hrow, Hrow'. f_equal. apply list_eq. intros j.
    pose proof (Forall_lookup_1 _ _ _ _ Hrows Hrow) as Hl.
    pose proof (Forall_lookup_1 _ _ _ _ Hrows' Hrow') as Hl'. cbn in Hl, Hl'.
    destruct (decide (j < 9)) as [Hj|Hj].
    + specialize (Hcells i j Hi Hj). unfold get, peek in Hcells.
      rewrite Hrow, Hrow' in Hcells.
      destruct (lookup_lt_is_Some_2 row j ltac:(lia)) as [v Hv].
      destruct (lookup_lt_is_Some_2 row' j ltac:(lia)) as [v' Hv'].
      rewrite Hv, Hv' in Hcells |- *. cbn in Hcells. by rewrite Hcells.
    + rewrite !lookup_ge_None_2 by lia. done.
  - destruct Hg as [Hlen _], Ht as [Hlen' _].
    rewrite !lookup_ge_None_2 by lia. done.
Qed.

(** X19. On a 9x9 puzzle with exactly one solution, [solve] reports
    success and returns that solution. *)
Theorem solve_unique_solution (clock : nat → float) (fuel : nat) (w : World)
    (t : Grid) :
  wf9 (grid (self w)) → valid_completion (grid (self w)) t →
  (∀ t', valid_completion (grid (self w)) t' → t' = t) → 81 < fuel →
  solved_by clock fuel w t.
Proof.
  intros Hwf Ht Hunique Hfuel.
  destruct (recursive_solve_total clock fuel (started clock w)) as (b & w' & Hcall).
  { done. }
  { pose proof (count_empty_bound _ Hwf).
    change (grid (self (started clock w))) with (grid (self w)). lia. }
  destruct b.
  - assert (grid (self w') = t) as <-.
    { apply Hunique, completes_valid_completion;
        [by apply (valid_completion_consistent _ t)|].
      by apply (recursive_solve_sound clock fuel (started clock w)). }
    exists (time_taken (self w')), w'. by rewrite solve_eq, Hcall.
  - apply valid_completion_completes in Ht.
    by apply (recursive_solve_exhaustive _ _ _ _ t) in Hcall.
Qed.

Lemma sample_unique (t' : Grid) :
  valid_completion sample_grid t' → t' = sample_solution.
Proof.
  intros (Hwf' & (Hrows & _ & _) & Hkeep).
  apply grid_ext; [done|apply wf9_put, wf9_sample_grid|].
  intros i j Hi Hj.
  destruct (decide ((i, j) = (8, 8))) as [[= -> ->]|Hne].
  - destruct (Hrows 8 ltac:(lia)) as [_ Hall].
    pose proof (proj2 (Hall 9%Z) ltac:(lia)) as Hnine.
    apply list_elem_of_fmap in Hnine as ([i' j'] & Hv & [? Hj']%elem_of_row_cells).
    cbn [fst snd] in *. subst i'.
    destruct (decide (j' = 8)) as [->|Hj8]; [by rewrite <- Hv|]. exfalso.
    assert (forallb (fun j => negb (get sample_grid 8 j =? 0)%Z &&
                              negb (get sample_grid 8 j =? 9)%Z) (seq 0 8) = true)
      as Hrow by (vm_compute; reflexivity).
    rewrite forallb_forall in Hrow.
    pose proof (Hrow j' ltac:(apply in_seq; lia)) as H.
    apply andb_true_iff in H as [Hnz%negb_true_iff%Z.eqb_neq H9%negb_true_iff%Z.eqb_neq].
    rewrite Hkeep in Hv by (done || lia). done.
  - assert (all_cellsb (fun i j => (i =? 8) && (j =? 8) ||
              negb (get sample_grid i j =? 0)%Z &&
              (get sample_solution i j =? get sample_grid i j)%Z) = true)
      as Hcells by (vm_compute; reflexivity).
    pose proof (proj1 (all_cellsb_spec _) Hcells i j Hi Hj) as H. cbn beta in H.
    apply orb_true_iff in H as [H|H].
    + apply andb_true_iff in H as [->%Nat.eqb_eq ->%Nat.eqb_eq]. done.
    + apply andb_true_iff in H as [Hnz%negb_true_iff%Z.eqb_neq Heq%Z.eqb_eq].
      rewrite Hkeep by done. done.
Qed.

Lemma solve_unique_solution_witness :
  solved_by still 82 (fresh sample_grid) sample_solution.
Proof.
  apply (solve_unique_solution still 82 (fresh sample_grid) sample_solution).
  - split; [reflexivity|repeat constructor].
  - apply valid_completionb_spec. vm_compute. reflexivity.
  - apply sample_unique.
  - lia.
Defined.
